(** * The relay hub of server/server.go, embedded in Rocq

    The hub is a single goroutine ([Hub.handle]) that owns the client
    registry and reacts to connect, disconnect and message events.  This
    file embeds its functions as state-passing definitions and checks the
    properties stated about them.

    Conventions.
    - Go strings and byte slices are [string] (a sequence of 8-bit
      characters); [len] returns a [Z], as Go's [int] does.
    - Go's [int] is the 64-bit signed integer: a [Z], with the wrap-around
      written where the code does arithmetic on it.
    - A channel [client.data] is a store cell holding the payloads sent so
      far and a closed flag; the registry is a [gmap] from identity to
      client.
    - Logging ([fmt.Printf], [fmt.Println]) is left out. *)

From Stdlib Require Import ZArith String Ascii Lia List DecimalString DecimalPos.
From stdpp Require Import gmap strings list fin_maps.

Local Open Scope Z_scope.

(** ** Strings: the functions of Go's [strings] package that the hub calls *)

Module Strings.

(** [len(s)] of a string or byte slice. *)
Definition len (s : string) : Z := Z.of_nat (String.length s).

(** [len(l)] of a slice. *)
Definition llen {A : Type} (l : list A) : Z := Z.of_nat (length l).

(** [strings.HasPrefix(s, prefix)]. *)
Fixpoint HasPrefix (s prefix : string) {struct prefix} : bool :=
  match prefix with
  | EmptyString => true
  | String p prefix' =>
      match s with
      | EmptyString => false
      | String c s' => Ascii.eqb c p && HasPrefix s' prefix'
      end
  end.

(** [s[n:]]: the string without its first [n] bytes. *)
Fixpoint skip (n : nat) (s : string) : string :=
  match n, s with
  | O, _ => s
  | S _, EmptyString => EmptyString
  | S n', String _ s' => skip n' s'
  end.

(** [strings.TrimPrefix(s, prefix)]: [s] without the leading [prefix], or
    [s] itself when it does not start with [prefix]. *)
Definition TrimPrefix (s prefix : string) : string :=
  if HasPrefix s prefix then skip (String.length prefix) s else s.

(** [strings.Split(s, sep)] for a separator of one byte, which is what
    every call in server.go passes (":", "," and ";"): the substrings
    between the occurrences of [sep], in order. *)
Fixpoint Split (s : string) (sep : ascii) : list string :=
  match s with
  | EmptyString => [EmptyString]
  | String c s' =>
      if Ascii.eqb c sep then EmptyString :: Split s' sep
      else match Split s' sep with
           | [] => [String c EmptyString]
           | field :: fields => String c field :: fields
           end
  end.

(** Number of occurrences of a byte in a string. *)
Fixpoint count (sep : ascii) (s : string) : nat :=
  match s with
  | EmptyString => O
  | String c s' => (if Ascii.eqb c sep then 1 else 0)%nat + count sep s'
  end.

End Strings.

(** ** Integers: [strconv.Atoi] and [fmt.Sprint] *)

Module Strconv.

Import Strings.

(** The [Err] field of a [*strconv.NumError]. *)
Inductive NumError : Type :=
  | ErrSyntax
  | ErrRange.

Definition intSize : Z := 64.
Definition maxUint64 : Z := 2 ^ 64 - 1.

(** Conversion to [int64] (two's complement wrap-around). *)
Definition to_int64 (z : Z) : Z := (z + 2 ^ 63) mod 2 ^ 64 - 2 ^ 63.

(** Conversion to [uint64]. *)
Definition to_uint64 (z : Z) : Z := z mod 2 ^ 64.

(** The numeric value of a byte. *)
Definition byte_val (c : ascii) : Z := Z.of_N (N_of_ascii c).

(** [lower(c)] of strconv: [c | ('x' - 'X')]. *)
Definition lower (c : Z) : Z := Z.lor c 32.

(** The digit that [ParseUint] reads from a byte, when [base0] is false:
    decimal digits and letters have a value, any other byte is a syntax
    error. *)
Definition digit_of (c : ascii) : option Z :=
  let b := byte_val c in
  if (48 <=? b) && (b <=? 57) then Some (b - 48)
  else if (97 <=? lower b) && (lower b <=? 122) then Some (lower b - 97 + 10)
  else None.

(** The loop of [strconv.ParseUint(s, 10, 64)], with [n] the value read so
    far: [cutoff] is [maxUint64/10 + 1], the smallest [n] for which
    [n * 10] overflows. *)
Definition cutoff10 : Z := maxUint64 / 10 + 1.

Fixpoint ParseUint_loop (s : string) (n : Z) : Z * option NumError :=
  match s with
  | EmptyString => (n, None)
  | String c s' =>
      match digit_of c with
      | None => (0, Some ErrSyntax)
      | Some d =>
          if d >=? 10 then (0, Some ErrSyntax)
          else if n >=? cutoff10 then (maxUint64, Some ErrRange)
          else
            let n10 := to_uint64 (n * 10) in
            let n1 := to_uint64 (n10 + d) in
            if (n1 <? n10) || (n1 >? maxUint64) then (maxUint64, Some ErrRange)
            else ParseUint_loop s' n1
      end
  end.

(** [strconv.ParseUint(s, 10, 0)]. *)
Definition ParseUint (s : string) : Z * option NumError :=
  match s with
  | EmptyString => (0, Some ErrSyntax)
  | _ => ParseUint_loop s 0
  end.

(** The part of [strconv.ParseInt(s, 10, 0)] that follows the sign:
    convert the unsigned digits [s1] and check the range. *)
Definition ParseInt_magnitude (neg : bool) (s1 : string) : Z * option NumError :=
  match ParseUint s1 with
  | (_, Some ErrSyntax) => (0, Some ErrSyntax)
  | (un, _) =>
      let cutoff := 2 ^ (intSize - 1) in
      if negb neg && (un >=? cutoff) then (cutoff - 1, Some ErrRange)
      else if neg && (un >? cutoff) then (- cutoff, Some ErrRange)
      else
        let n := to_int64 un in
        (if neg then to_int64 (- n) else n, None)
  end.

(** [strconv.ParseInt(s, 10, 0)]: pick off the leading sign. *)
Definition ParseInt (s : string) : Z * option NumError :=
  match s with
  | EmptyString => (0, Some ErrSyntax)
  | String c s' =>
      if Ascii.eqb c "+" then ParseInt_magnitude false s'
      else if Ascii.eqb c "-" then ParseInt_magnitude true s'
      else ParseInt_magnitude false s
  end.

(** The loop of the fast path of [strconv.Atoi]: [ch -= '0'] is byte
    arithmetic, so a byte below '0' wraps to a value above 9. *)
Fixpoint Atoi_fast_loop (s : string) (n : Z) : option Z :=
  match s with
  | EmptyString => Some n
  | String c s' =>
      let ch := (byte_val c - 48) mod 256 in
      if ch >? 9 then None
      else Atoi_fast_loop s' (to_int64 (n * 10 + ch))
  end.

(** [strconv.Atoi(s)]: the pair of the value and the error ([None] is
    [nil]).  Strings of 1 to 18 bytes take the fast path, the others go
    through [ParseInt]. *)
Definition Atoi (s : string) : Z * option NumError :=
  let sLen := len s in
  if (0 <? sLen) && (sLen <? 19) then
    match s with
    | EmptyString => (0, Some ErrSyntax)
    | String c0 s' =>
        let signed := Ascii.eqb c0 "-" || Ascii.eqb c0 "+" in
        let s1 := if signed then s' else s in
        if signed && (len s1 <? 1) then (0, Some ErrSyntax)
        else
          match Atoi_fast_loop s1 0 with
          | None => (0, Some ErrSyntax)
          | Some n => (if Ascii.eqb c0 "-" then to_int64 (- n) else n, None)
          end
    end
  else ParseInt s.

(** [fmt.Sprint(n)] and the verb [%d] for an [int]: the decimal numeral,
    with a leading [-] for a negative number. *)
Definition Sprint (n : Z) : string := NilZero.string_of_int (Z.to_int n).

End Strconv.

(** ** The hub: data model *)

Module Server.

Import Strings Strconv.

Definition maxBodySize : Z := 1024000.
Definition maxReceiversPerMessage : Z := 255.

(** The line feed, written ["\n"] in Go. *)
Definition LF : string := String (ascii_of_nat 10) EmptyString.

(** A [*websocket.Conn], of which the hub only asks
    [RemoteAddr().String()]. *)
Record Conn : Type := { RemoteAddr : string }.

(** A [chan []byte] is a reference: two clients share a channel exactly
    when they hold the same one. *)
Definition chan : Type := nat.

(** Modelled from the spec: the declaration of the struct [Client] is not
    part of server.go.  Its two fields are the ones [serveWS] fills in
    ([Client{ws: conn, data: make(chan []byte)}]): the stream of the
    connection and the client's outbound queue. *)
Record Client : Type := { ws : Conn; data : chan }.

(** [HubMessage]: a message read from a client, with the client. *)
Record HubMessage : Type := { contents : string; client : Client }.

(** What has happened to a channel [client.data]: the payloads sent on it,
    oldest first, and whether [close] was called on it. *)
Record Chan : Type := { queue : list string; closed : bool }.

(** The state the serializer works on: the [clients] map of the [Hub] and
    the channels of the clients, which Go keeps on the heap.  The three
    channels [connect], [disconnect] and [messagesChannel] of the [Hub]
    are the sources of the events below. *)
Record Hub : Type := {
  clients : gmap Z Client;
  channels : gmap chan Chan
}.

(** [make(chan []byte)]: open, nothing sent. *)
Definition make_chan : Chan := {| queue := []; closed := false |}.

(** The state of a channel; a channel nobody has used yet is as [make]
    left it. *)
Definition chan_state (h : Hub) (ch : chan) : Chan :=
  default make_chan (channels h !! ch).

(** [InitHub]: [clients: make(map[int]*Client)]. *)
Definition InitHub : Hub := {| clients := ∅; channels := ∅ |}.

(** An [error] value built by [fmt.Errorf]. *)
Inductive error : Type := Errorf (msg : string).

(** ** Effects

    A function of the hub runs on the state and ends in one of three ways:
    it returns, it panics, or its goroutine blocks for ever. *)

Inductive Result (A : Type) : Type :=
  | Ok (a : A) (h : Hub)
  | Panic (reason : string)
  | Blocked (h : Hub).

Arguments Ok {A} a h.
Arguments Panic {A} reason.
Arguments Blocked {A} h.

Definition M (A : Type) : Type := Hub → Result A.

Definition M_ret {A : Type} (a : A) : M A := λ h, Ok a h.

Definition M_bind {A B : Type} (f : A → M B) (m : M A) : M B := λ h,
  match m h with
  | Ok a h' => f a h'
  | Panic reason => Panic reason
  | Blocked h' => Blocked h'
  end.

#[global] Instance M_mret : MRet M := @M_ret.
#[global] Instance M_mbind : MBind M := @M_bind.

(** Expose the [match] of the binds of the goal. *)
Ltac M_step := unfold mbind, M_mbind, M_bind.

(** The state after one more payload has been sent on [ch]. *)
Definition enqueue (ch : chan) (payload : string) (h : Hub) : Hub :=
  {| clients := clients h;
     channels := <[ch := {| queue := queue (chan_state h ch) ++ [payload];
                             closed := closed (chan_state h ch) |}]> (channels h) |}.

(** [ch <- payload] on a client's [data] channel.  The send completes
    when the client's writer receives the payload; on a closed channel Go
    panics. *)
Definition send (ch : chan) (payload : string) : M unit := λ h,
  if closed (chan_state h ch) then Panic "send on closed channel"
  else Ok tt (enqueue ch payload h).

(** [close(ch)]; closing a closed channel panics. *)
Definition close (ch : chan) : M unit := λ h,
  if closed (chan_state h ch) then Panic "close of closed channel"
  else Ok tt {| clients := clients h;
                channels := <[ch := {| queue := queue (chan_state h ch);
                                        closed := true |}]> (channels h) |}.

(** [hub.disconnect <- c] executed by [handle] itself (directly or inside
    [handleMessage]).  [hub.disconnect] is unbuffered ([make(chan
    *Client)]) and its only receiver is the [select] of [handle], which is
    not waiting while [handle] executes this send: no receiver ever takes
    the value and the goroutine stays in the send. *)
Definition send_disconnect (c : Client) : M unit := λ h, Blocked h.

(** [hub.clients[port] = connection]. *)
Definition set_client (port : Z) (connection : Client) : M unit := λ h,
  Ok tt {| clients := <[port := connection]> (clients h);
           channels := channels h |}.

(** [destClient, found := hub.clients[userID]]. *)
Definition get_client (userID : Z) : M (option Client) := λ h,
  Ok (clients h !! userID) h.

(** [*p] for a [*int]: a nil pointer panics. *)
Definition deref (p : option Z) : M Z :=
  match p with
  | Some n => mret n
  | None => λ _, Panic "invalid memory address or nil pointer dereference"
  end.

(** ** The functions of server.go *)

(** [getPortFromAddress]: [inl port] is [(&port, nil)], [inr err] is
    [(nil, err)].  [portStr[1]] is read after the length check, so the
    index is in range. *)
Definition getPortFromAddress (a : string) : Z + error :=
  let portStr := Split a ":" in
  if negb (llen portStr =? 2) then
    inr (Errorf ("error reading the address: " +:+ a))
  else
    match Atoi (nth 1 portStr "") with
    | (_, Some _) => inr (Errorf ("error converting port: " +:+ nth 1 portStr ""))
    | (port, None) => inl port
    end.

(** The pointer of [id, _ := getPortFromAddress(...)]: nil on an error. *)
Definition port_ptr (r : Z + error) : option Z :=
  match r with
  | inl port => Some port
  | inr _ => None
  end.

(** The loop of [clientsToBytes], at index [i] with [value] built so
    far. *)
Fixpoint clientsToBytes_loop (i : Z) (cs : list Client) (value : string) : M string :=
  match cs with
  | [] => mret value
  | c :: cs' =>
      id ← deref (port_ptr (getPortFromAddress (RemoteAddr (ws c))));
      let bValue := (Sprint i +:+ ") ") +:+ Sprint id in
      let bValue := bValue +:+ LF in
      clientsToBytes_loop (i + 1) cs' (value +:+ bValue)
  end.

Definition clientsToBytes (cs : list Client) : M string :=
  clientsToBytes_loop 0 cs ("users list: " +:+ LF).

(** The loop of [parseRelayString] over [destList]. *)
Fixpoint parseRelayString_loop (message : HubMessage) (senderID : option Z)
    (body : string) (destList : list string) : M unit :=
  match destList with
  | [] => mret tt
  | u :: destList' =>
      let userID := fst (Atoi u) in
      destClient ← get_client userID;
      match destClient with
      | None =>
          send (data (client message)) ("userid not found: " +:+ u)
      | Some destClient =>
          id ← deref senderID;
          let userName := Sprint id +:+ "-> " in
          send (data destClient) (userName +:+ body)
      end;;
      parseRelayString_loop message senderID body destList'
  end.

Definition parseRelayString (message : HubMessage) : M unit :=
  let sender := data (client message) in
  let relay := TrimPrefix (contents message) "relay|" in
  let relayArgs := Split relay "," in
  if negb (llen relayArgs =? 2) then
    send sender "relay message should contain users and body fields"
  else if negb (HasPrefix (nth 0 relayArgs "") "users=") then
    send sender "relay message should contain users field"
  else if negb (HasPrefix (nth 1 relayArgs "") "body=") then
    send sender "relay message should contain a body field"
  else
    let users := TrimPrefix (nth 0 relayArgs "") "users=" in
    let body := TrimPrefix (nth 1 relayArgs "") "body=" in
    let destList := Split users ";" in
    if llen destList =? 0 then
      send sender "unexpected message format"
    else if llen destList >? maxReceiversPerMessage then
      send sender "max receivers per message exceeded"
    else if len body >? maxBodySize then
      send sender "message body can't exceed 1024kb"
    else
      let senderID := port_ptr (getPortFromAddress (RemoteAddr (ws (client message)))) in
      parseRelayString_loop message senderID body destList.

(** Events the serializer takes from its three channels. *)
Inductive Event : Type :=
  | Connect (connection : Client)
  | Disconnect (disconnect : Client)
  | Message (message : HubMessage).

(** How one round of the [for] loop of [handle] ends. *)
Inductive Flow : Type :=
  | Continue
  | Return.

Section Serializer.

(** Go leaves the order of [for k, v := range hub.clients] unspecified:
    the order is a parameter, any enumeration of the entries of the map. *)
Variable range_order : gmap Z Client → list (Z * Client).
Hypothesis range_order_perm : ∀ m, range_order m ≡ₚ map_to_list m.

Fixpoint getAllUsersExcept_loop (user : Z) (entries : list (Z * Client))
    (cs : list Client) : list Client :=
  match entries with
  | [] => cs
  | (k, v) :: entries' =>
      if negb (k =? user) then getAllUsersExcept_loop user entries' (cs ++ [v])
      else getAllUsersExcept_loop user entries' cs
  end.

Definition getAllUsersExcept (user : Z) : M (list Client) := λ h,
  Ok (getAllUsersExcept_loop user (range_order (clients h)) []) h.

Definition handleMessage (hubM : HubMessage) : M unit :=
  let add := RemoteAddr (ws (client hubM)) in
  match getPortFromAddress add with
  | inr err => send_disconnect (client hubM)
  | inl port =>
      let msgStr := contents hubM in
      if String.eqb msgStr "id" then
        send (data (client hubM)) (Sprint port)
      else if String.eqb msgStr "list" then
        usersList ← getAllUsersExcept port;
        listing ← clientsToBytes usersList;
        send (data (client hubM)) listing
      else if HasPrefix msgStr "relay" then
        parseRelayString hubM
      else
        send (data (client hubM)) "command not recognized"
  end.

(** One round of the [for { select { ... } }] of [handle], on the event
    that the [select] received. *)
Definition handle_select (e : Event) : M Flow :=
  match e with
  | Connect connection =>
      let add := RemoteAddr (ws connection) in
      match getPortFromAddress add with
      | inr err =>
          send_disconnect connection;;
          mret Return
      | inl port =>
          set_client port connection;;
          mret Continue
      end
  | Disconnect disconnect =>
      close (data disconnect);;
      mret Continue
  | Message message =>
      handleMessage message;;
      mret Continue
  end.

(** [handle] on the events in the order its [select] receives them:
    [Continue] when all are handled and the loop waits for the next one,
    [Return] when the function has returned. *)
Fixpoint handle (events : list Event) : M Flow :=
  match events with
  | [] => mret Continue
  | e :: events' =>
      flow ← handle_select e;
      match flow with
      | Continue => handle events'
      | Return => mret Return
      end
  end.

End Serializer.

(** ** The writer task *)

(** A [websocket] frame: message type and payload. *)
Record Frame : Type := { messageType : Z; payload : string }.

(** One result of [message, ok := <-client.data]. *)
Inductive Recv : Type :=
  | Received (message : string)
  | Closed.

(** How far [write] got on the receive results it was given. *)
Inductive WriterState : Type :=
  | Returned
  | Receiving.

(** [write]: the frames written by the loop on the successive results of
    its receive, and whether the function returned or still waits in the
    receive.  The result of [WriteMessage] is not looked at. *)
Fixpoint write (rx : list Recv) : list Frame * WriterState :=
  match rx with
  | [] => ([], Receiving)
  | Closed :: _ => ([], Returned)
  | Received message :: rx' =>
      let '(frames, st) := write rx' in
      ({| messageType := 1; payload := "server: " +:+ message |} :: frames, st)
  end.

(** What the writer of a channel receives, given what happened to the
    channel. *)
Definition receives (c : Chan) : list Recv :=
  map Received (queue c) ++ (if closed c then [Closed] else []).

End Server.

(** ** Definitions that follow the words of the specification

    These are not translations of code: they say, independently of the
    functions above, what "a base-10 integer" and "split on the last
    separator" mean, so that the code can be compared with them. *)

Module Spec.

Import Strings Strconv.

(** A decimal digit, '0' to '9'. *)
Definition is_digit (c : ascii) : bool :=
  (48 <=? byte_val c) && (byte_val c <=? 57).

Fixpoint all_digits (s : string) : bool :=
  match s with
  | EmptyString => true
  | String c s' => is_digit c && all_digits s'
  end.

(** The number written by the digits of [s] after the digits of [n]. *)
Fixpoint digits_val (n : Z) (s : string) : Z :=
  match s with
  | EmptyString => n
  | String c s' => digits_val (n * 10 + (byte_val c - 48)) s'
  end.

(** A base-10 integer: an optional sign, then one decimal digit or
    more. *)
Definition base10 (s : string) : bool :=
  match s with
  | EmptyString => false
  | String c s' =>
      if Ascii.eqb c "-" || Ascii.eqb c "+" then
        negb (String.eqb s' "") && all_digits s'
      else all_digits s
  end.

(** The integer that a base-10 numeral denotes. *)
Definition base10_val (s : string) : Z :=
  match s with
  | EmptyString => 0
  | String c s' =>
      if Ascii.eqb c "-" then - digits_val 0 s'
      else if Ascii.eqb c "+" then digits_val 0 s'
      else digits_val 0 s
  end.

(** The values of Go's [int]. *)
Definition is_int (z : Z) : Prop := - 2 ^ 63 <= z < 2 ^ 63.

(** Split on the last occurrence of [sep]: the text before it and the
    text after it, or the whole string when [sep] does not occur. *)
Fixpoint SplitLast (s : string) (sep : ascii) : list string :=
  match s with
  | EmptyString => [EmptyString]
  | String c s' =>
      match SplitLast s' sep with
      | [before; after] => [String c before; after]
      | _ => if Ascii.eqb c sep then [EmptyString; s'] else [s]
      end
  end.

End Spec.

(** ** What a function of the hub has sent, and what the protocol says it
    sends *)

Module Protocol.

Import Strings Strconv Server.

(** The payloads that a list of sends puts on channel [ch], in order. *)
Definition sent_to (ch : chan) (sends : list (chan * string)) : list string :=
  map snd (List.filter (λ s, Nat.eqb (fst s) ch) sends).

(** Between [h] and [h'] the sends [sends] happened and nothing else: the
    registry is the same, every queue has grown by exactly the payloads
    sent to it, and no channel was closed or reopened. *)
Definition exactly_sent (h h' : Hub) (sends : list (chan * string)) : Prop :=
  clients h' = clients h ∧
  ∀ ch, queue (chan_state h' ch) = queue (chan_state h ch) ++ sent_to ch sends ∧
        closed (chan_state h' ch) = closed (chan_state h ch).

(** The send that the relay protocol prescribes for one destination
    token: a notice to the sender when the identity the token converts to
    is not registered, the body with the sender's identity in front to the
    destination when it is. *)
Definition relay_send (h : Hub) (sender : Client) (senderID : Z) (body : string)
    (u : string) : chan * string :=
  match clients h !! fst (Atoi u) with
  | None => (data sender, "userid not found: " +:+ u)
  | Some destClient => (data destClient, (Sprint senderID +:+ "-> ") +:+ body)
  end.

(** One send per destination token, in the order of the list. *)
Definition relay_sends (h : Hub) (sender : Client) (senderID : Z) (body : string)
    (destList : list string) : list (chan * string) :=
  map (relay_send h sender senderID body) destList.

(** The parts of a relay message as [parseRelayString] takes them out: the
    comma-separated fields after [relay|], the text after [users=] and the
    text after [body=], and the destination tokens. *)
Definition relay_fields (message : HubMessage) : list string :=
  Split (TrimPrefix (contents message) "relay|") ",".

Definition relay_users (message : HubMessage) : string :=
  TrimPrefix (nth 0 (relay_fields message) "") "users=".

Definition relay_body (message : HubMessage) : string :=
  TrimPrefix (nth 1 (relay_fields message) "") "body=".

Definition relay_dests (message : HubMessage) : list string :=
  Split (relay_users message) ";".

(** The three syntax checks pass. *)
Definition relay_syntax_ok (message : HubMessage) : Prop :=
  llen (relay_fields message) = 2 ∧
  HasPrefix (nth 0 (relay_fields message) "") "users=" = true ∧
  HasPrefix (nth 1 (relay_fields message) "") "body=" = true.

(** The two limit checks pass. *)
Definition relay_within_limits (message : HubMessage) : Prop :=
  llen (relay_dests message) <= maxReceiversPerMessage ∧
  len (relay_body message) <= maxBodySize.

(** [parseRelayString] rejects the message: it returns after sending
    [text] to the sender's queue, and has sent nothing else. *)
Definition rejected_with (message : HubMessage) (h : Hub) (text : string) : Prop :=
  ∃ h', parseRelayString message h = Ok tt h' ∧
        exactly_sent h h' [(data (client message), text)].

(** The lines of a listing: index, [") "], identity, line feed. *)
Fixpoint listing_lines (i : Z) (ids : list Z) : string :=
  match ids with
  | [] => ""
  | id :: ids' =>
      Sprint i +:+ ") " +:+ Sprint id +:+ LF +:+ listing_lines (i + 1) ids'
  end.

(** The reply to [list] that enumerates the identities [ids]. *)
Definition listing (ids : list Z) : string :=
  "users list: " +:+ LF +:+ listing_lines 0 ids.

(** Every key of the registry is the identity of the client stored under
    it. *)
Definition keyed_by_identity (h : Hub) : Prop :=
  ∀ k c, clients h !! k = Some c →
         getPortFromAddress (RemoteAddr (ws c)) = inl k.

(** The frames a writer has to produce for the payloads it dequeued. *)
Definition framed (payloads : list string) : list Frame :=
  map (λ p, {| messageType := 1; payload := "server: " +:+ p |}) payloads.

(** The payloads received before the channel was reported closed. *)
Fixpoint dequeued (rx : list Recv) : list string :=
  match rx with
  | Received p :: rx' => p :: dequeued rx'
  | _ => []
  end.

End Protocol.

(** ** Clients, states and messages of the examples *)

Module Examples.

Import Strings Strconv Server.

Definition alice : Client :=
  {| ws := {| RemoteAddr := "10.0.0.1:5000" |}; data := 1%nat |}.

Definition bob : Client :=
  {| ws := {| RemoteAddr := "10.0.0.2:6000" |}; data := 2%nat |}.

(** A client whose remote address is an IPv6 one: more than one colon. *)
Definition carol : Client :=
  {| ws := {| RemoteAddr := "[::1]:7000" |}; data := 3%nat |}.

(** The hub once [alice] and [bob] have connected. *)
Definition two_clients : Hub :=
  {| clients := <[6000 := bob]> (<[5000 := alice]> ∅); channels := ∅ |}.

Definition says (sender : Client) (text : string) : HubMessage :=
  {| contents := text; client := sender |}.

(** [n] copies of [s]. *)
Fixpoint copies (n : nat) (s : string) : string :=
  match n with
  | O => EmptyString
  | S n' => s +:+ copies n' s
  end.

(** A relay from [sender] with [tokens] destination tokens, all ["6000"],
    and the given body. *)
Definition relay_to_many (sender : Client) (tokens : nat) (body : string) : HubMessage :=
  says sender ("relay|users=6000" +:+ copies (tokens - 1) ";6000" +:+ ",body=" +:+ body).

End Examples.

(** ** The reader task and the accept path *)

Module Tasks.

Import Strings Strconv Server.

(** One result of [_, msg, err := client.ws.ReadMessage()]: a frame, or an
    error. *)
Inductive ReadResult : Type :=
  | ReadFrame (msg : string)
  | ReadError.

(** Where [read] is after the results it was given: in [ReadMessage], or
    out of its loop (after [client.ws.Close()] and [break]). *)
Inductive ReaderState : Type :=
  | Reading
  | ReaderStopped.

(** [read]: the events the loop sends to the hub, in order, on the
    successive results of [ReadMessage], and where it is afterwards.  A
    send on [hub.disconnect] or [hub.messagesChannel] is the event that
    the serializer receives. *)
Fixpoint read (client : Client) (results : list ReadResult) : list Event * ReaderState :=
  match results with
  | [] => ([], Reading)
  | ReadError :: _ => ([Disconnect client], ReaderStopped)
  | ReadFrame msg :: results' =>
      let '(events, st) := read client results' in
      if len msg >? 0 then
        (Message {| contents := msg; client := client |} :: events, st)
      else (events, st)
  end.

(** How [serveWS] answers the request: [http.Error(w, "", 500)] when the
    upgrade fails, a client served by its two tasks otherwise. *)
Inductive Served : Type :=
  | HttpError (status : Z)
  | Serving (client : Client).

(** [serveWS], given the result of [hub.upgrader.Upgrade] and the channel
    that [make(chan []byte)] returns: its answer and what it sends on
    [hub.connect], which it does before it starts [read] and [write]. *)
Definition serveWS (upgrade : Conn + error) (fresh : chan) : Served * list Event :=
  match upgrade with
  | inr err => (HttpError 500, [])
  | inl conn =>
      let client := {| ws := conn; data := fresh |} in
      (Serving client, [Connect client])
  end.

(** The events that one request brings to the serializer: what [serveWS]
    sends, then what the [read] it starts sends. *)
Definition connection (upgrade : Conn + error) (fresh : chan)
    (results : list ReadResult) : list Event :=
  match serveWS upgrade fresh with
  | (Serving client, events) => events ++ fst (read client results)
  | (HttpError _, events) => events
  end.

End Tasks.

(** ** What a run of the serializer leaves behind *)

Module Runs.

Import Strings Strconv Server Examples Tasks.

(** The registry after an event, were only Connects to change it: a
    Connect whose address resolves stores the client under its port. *)
Definition register (m : gmap Z Client) (e : Event) : gmap Z Client :=
  match e with
  | Connect c =>
      match getPortFromAddress (RemoteAddr (ws c)) with
      | inl port => <[port := c]> m
      | inr _ => m
      end
  | _ => m
  end.

Definition registry_after (m : gmap Z Client) (events : list Event) : gmap Z Client :=
  foldl register m events.

(** The event is a Disconnect of a client that holds channel [ch]. *)
Definition disconnects (ch : chan) (e : Event) : bool :=
  match e with
  | Disconnect c => Nat.eqb (data c) ch
  | _ => false
  end.

(** The client an event comes from. *)
Definition event_client (e : Event) : Client :=
  match e with
  | Connect c => c
  | Disconnect c => c
  | Message m => client m
  end.

(** The event is no Disconnect and comes from a client whose address
    resolves. *)
Definition live (e : Event) : Prop :=
  (∀ c, e ≠ Disconnect c) ∧
  ∃ port, getPortFromAddress (RemoteAddr (ws (event_client e))) = inl port.

(** The nearest [int]. *)
Definition clamp_int (z : Z) : Z := Z.max (- 2 ^ 63) (Z.min z (2 ^ 63 - 1)).

(** The non-empty frames read before the first error. *)
Fixpoint frames_read (results : list ReadResult) : list string :=
  match results with
  | ReadFrame msg :: results' =>
      if String.eqb msg "" then frames_read results' else msg :: frames_read results'
  | _ => []
  end.

(** A read error occurred. *)
Definition failed (results : list ReadResult) : bool :=
  existsb (λ r, match r with ReadError => true | ReadFrame _ => false end) results.

(** The sends go to the sender's queue or to queues of registered
    clients. *)
Definition addressed (h : Hub) (sender : Client) (sends : list (chan * string)) : Prop :=
  ∀ s, s ∈ sends →
       fst s = data sender ∨ ∃ k d, clients h !! k = Some d ∧ fst s = data d.

(** A client whose port is 0. *)
Definition zed : Client :=
  {| ws := {| RemoteAddr := "10.0.0.9:0" |}; data := 9%nat |}.

(** The hub once [alice], [bob] and [zed] have connected. *)
Definition with_zed : Hub :=
  {| clients := <[0 := zed]> (<[6000 := bob]> (<[5000 := alice]> ∅)); channels := ∅ |}.

(** The hub once [alice] and [bob] have connected and [alice] has
    disconnected. *)
Definition alice_left : Hub :=
  {| clients := <[6000 := bob]> (<[5000 := alice]> ∅);
     channels := {[ 1%nat := {| queue := []; closed := true |} ]} |}.

End Runs.


(** * Proofs *)

Import Strings Strconv Server Spec Protocol Examples.

(** ** Facts about the string functions *)

Section StringFacts.

Lemma Split_nonempty (s : string) (sep : ascii) : Split s sep ≠ [].
Proof.
  destruct s as [|c s]; simpl; [done|].
  destruct (Ascii.eqb c sep); [done|].
  by destruct (Split s sep).
Qed.

Lemma Split_length (s : string) (sep : ascii) :
  length (Split s sep) = S (count sep s).
Proof.
  induction s as [|c s IH]; simpl; [done|].
  destruct (Ascii.eqb c sep); simpl.
  - by rewrite IH.
  - pose proof (Split_nonempty s sep) as Hne.
    destruct (Split s sep); [done|]. simpl in *. lia.
Qed.

Lemma Split_no_sep (s : string) (sep : ascii) :
  count sep s = O → Split s sep = [s].
Proof.
  induction s as [|c s IH]; simpl; [done|].
  destruct (Ascii.eqb c sep); [done|].
  intros H. by rewrite IH.
Qed.

Lemma Split_app (s t : string) (sep : ascii) :
  count sep s = O → Split (s +:+ String sep t) sep = s :: Split t sep.
Proof.
  induction s as [|c s IH]; simpl.
  - by rewrite Ascii.eqb_refl.
  - destruct (Ascii.eqb c sep); [done|].
    intros H. by rewrite IH.
Qed.

Lemma count_app (s t : string) (sep : ascii) :
  count sep (s +:+ t) = (count sep s + count sep t)%nat.
Proof. induction s as [|c s IH]; simpl; [done|]. rewrite IH. lia. Qed.

(** The first field of a split and the rest of the string. *)
Lemma Split_cons (s : string) (sep : ascii) (x : string) (xs : list string) :
  Split s sep = x :: xs →
  count sep x = O ∧
  match xs with
  | [] => s = x
  | _ :: _ => ∃ t, s = x +:+ String sep t ∧ Split t sep = xs
  end.
Proof.
  revert x xs. induction s as [|c s IH]; simpl; intros x xs.
  - intros [= <- <-]. done.
  - destruct (Ascii.eqb_spec c sep) as [->|Hne].
    + intros [= <- <-]. split; [done|].
      pose proof (Split_nonempty s sep). destruct (Split s sep) eqn:E; [done|].
      exists s. by rewrite E.
    + destruct (Split s sep) as [|y ys] eqn:E; [by destruct (Split_nonempty s sep)|].
      intros [= <- <-]. destruct (IH y ys eq_refl) as [Hy Hrest].
      split.
      * simpl. apply Ascii.eqb_neq in Hne. by rewrite Hne.
      * destruct ys; [by subst|]. destruct Hrest as (t & -> & Ht). by exists t.
Qed.

Lemma Split_two (s : string) (sep : ascii) :
  length (Split s sep) = 2%nat ↔
  ∃ x y, s = x +:+ String sep y ∧ count sep x = O ∧ count sep y = O.
Proof.
  split.
  - intros Hlen. destruct (Split s sep) as [|x [|y [|? ?]]] eqn:E; try done.
    destruct (Split_cons _ _ _ _ E) as [Hx (t & -> & Ht)].
    destruct (Split_cons _ _ _ _ Ht) as [Hy ->].
    by exists x, y.
  - intros (x & y & -> & Hx & Hy).
    rewrite Split_app by done. by rewrite Split_no_sep.
Qed.

Lemma Split_two_fields (x y : string) (sep : ascii) :
  count sep x = O → count sep y = O →
  Split (x +:+ String sep y) sep = [x; y].
Proof. intros Hx Hy. rewrite Split_app by done. by rewrite Split_no_sep. Qed.

Lemma HasPrefix_app (p s : string) : HasPrefix (p +:+ s) p = true.
Proof. induction p as [|c p IH]; simpl; [done|]. by rewrite Ascii.eqb_refl, IH. Qed.

Lemma skip_app (p s : string) : skip (String.length p) (p +:+ s) = s.
Proof. induction p as [|c p IH]; simpl; done. Qed.

Lemma TrimPrefix_app (p s : string) : TrimPrefix (p +:+ s) p = s.
Proof. unfold TrimPrefix. by rewrite HasPrefix_app, skip_app. Qed.

End StringFacts.

(** ** [strconv.Atoi] accepts exactly the base-10 numerals of an [int] *)

Section AtoiFacts.

Lemma byte_val_range (c : ascii) : 0 <= byte_val c < 256.
Proof.
  unfold byte_val. pose proof (N_ascii_bounded c). lia.
Qed.

Lemma fast_digit (c : ascii) :
  ((byte_val c - 48) mod 256 >? 9) = negb (is_digit c).
Proof.
  unfold is_digit. pose proof (byte_val_range c) as Hb.
  destruct (Z_lt_le_dec (byte_val c) 48) as [Hlt|Hge].
  - replace ((byte_val c - 48) mod 256) with (byte_val c + 208)
      by (apply Z.mod_unique_pos with (q := -1); lia).
    apply Z.leb_gt in Hlt as Hlt'. rewrite Hlt'. simpl. lia.
  - rewrite Z.mod_small by lia.
    apply Z.leb_le in Hge as Hge'. rewrite Hge'. simpl.
    destruct (Z.leb_spec (byte_val c) 57); simpl; lia.
Qed.

(** [ParseUint] reads a digit below the base exactly from a decimal
    digit. *)
Lemma digit_of_decimal (c : ascii) :
  match digit_of c with
  | Some d => if d >=? 10 then is_digit c = false
              else is_digit c = true ∧ d = byte_val c - 48
  | None => is_digit c = false
  end.
Proof.
  unfold digit_of, is_digit. pose proof (byte_val_range c) as Hb.
  destruct ((48 <=? byte_val c) && (byte_val c <=? 57)) eqn:E.
  - apply andb_prop in E as [E1 E2].
    apply Z.leb_le in E1. apply Z.leb_le in E2.
    destruct (Z.geb_spec (byte_val c - 48) 10); [lia|done].
  - destruct ((97 <=? lower (byte_val c)) && (lower (byte_val c) <=? 122)) eqn:E'; [|done].
    apply andb_prop in E' as [E1 _]. apply Z.leb_le in E1.
    destruct (Z.geb_spec (lower (byte_val c) - 97 + 10) 10); [done|lia].
Qed.

Lemma digits_val_mono (s : string) (n : Z) :
  all_digits s = true → 0 <= n → n <= digits_val n s.
Proof.
  revert n. induction s as [|c s IH]; simpl; intros n Hd Hn; [lia|].
  apply andb_prop in Hd as [Hc Hs]. unfold is_digit in Hc.
  apply andb_prop in Hc as [H1 H2]. apply Z.leb_le in H1. apply Z.leb_le in H2.
  specialize (IH (n * 10 + (byte_val c - 48)) Hs). lia.
Qed.

Lemma digits_val_bound (s : string) (n : Z) :
  all_digits s = true → 0 <= n →
  digits_val n s < (n + 1) * 10 ^ len s.
Proof.
  unfold len. revert n. induction s as [|c s IH]; simpl String.length; intros n Hd Hn.
  - simpl. lia.
  - simpl in Hd. apply andb_prop in Hd as [Hc Hs]. unfold is_digit in Hc.
    apply andb_prop in Hc as [H1 H2]. apply Z.leb_le in H1. apply Z.leb_le in H2.
    simpl digits_val.
    specialize (IH (n * 10 + (byte_val c - 48)) Hs ltac:(lia)).
    rewrite Nat2Z.inj_succ, Z.pow_succ_r by lia.
    assert (0 < 10 ^ Z.of_nat (String.length s)) by (apply Z.pow_pos_nonneg; lia).
    nia.
Qed.

Lemma to_uint64_small (z : Z) : 0 <= z <= maxUint64 → to_uint64 z = z.
Proof. unfold to_uint64, maxUint64. intros H. apply Z.mod_small. lia. Qed.

Lemma to_int64_small (z : Z) : is_int z → to_int64 z = z.
Proof.
  unfold to_int64, is_int. intros H. rewrite Z.mod_small; lia.
Qed.

(** On digits, the loop of [ParseUint] computes the value, or reports a
    range error as soon as the value passes [maxUint64]. *)
Lemma ParseUint_loop_digits (s : string) (n : Z) :
  all_digits s = true → 0 <= n <= maxUint64 →
  ParseUint_loop s n =
    if digits_val n s <=? maxUint64 then (digits_val n s, None)
    else (maxUint64, Some ErrRange).
Proof.
  revert n. induction s as [|c s IH]; intros n Hd Hn.
  - simpl. destruct (Z.leb_spec n maxUint64); [done|lia].
  - simpl in Hd. apply andb_prop in Hd as [Hc Hs].
    simpl. pose proof (digit_of_decimal c) as Hdig.
    destruct (digit_of c) as [d|]; [|congruence].
    destruct (d >=? 10); [congruence|]. destruct Hdig as [_ ->].
    assert (0 <= byte_val c - 48 <= 9) as Hd9.
    { unfold is_digit in Hc. apply andb_prop in Hc as [H1 H2].
      apply Z.leb_le in H1. apply Z.leb_le in H2. lia. }
    pose proof (digits_val_mono s (n * 10 + (byte_val c - 48)) Hs ltac:(lia)) as Hmono.
    unfold cutoff10, maxUint64 in *. change (2 ^ 64 - 1) with 18446744073709551615 in *.
    change (18446744073709551615 / 10 + 1) with 1844674407370955162.
    destruct (Z.geb_spec n 1844674407370955162) as [Hcut|Hcut].
    + destruct (Z.leb_spec (digits_val (n * 10 + (byte_val c - 48)) s) 18446744073709551615); [lia|done].
    + unfold to_uint64. change (2 ^ 64) with 18446744073709551616.
      rewrite (Z.mod_small (n * 10)) by lia.
      destruct (Z_le_gt_dec (n * 10 + (byte_val c - 48)) 18446744073709551615) as [Hfit|Hover].
      * rewrite Z.mod_small by lia.
        destruct (Z.ltb_spec (n * 10 + (byte_val c - 48)) (n * 10)); [lia|].
        destruct (Z.gtb_spec (n * 10 + (byte_val c - 48)) 18446744073709551615); [lia|].
        simpl. apply IH; [done|lia].
      * replace ((n * 10 + (byte_val c - 48)) mod 18446744073709551616)
          with (n * 10 + (byte_val c - 48) - 18446744073709551616)
          by (apply Z.mod_unique_pos with (q := 1); lia).
        destruct (Z.ltb_spec (n * 10 + (byte_val c - 48) - 18446744073709551616) (n * 10)); [|lia].
        simpl.
        destruct (Z.leb_spec (digits_val (n * 10 + (byte_val c - 48)) s) 18446744073709551615); [lia|done].
Qed.

(** On anything else the loop ends in an error. *)
Lemma ParseUint_loop_not_digits (s : string) (n : Z) :
  all_digits s = false → snd (ParseUint_loop s n) ≠ None.
Proof.
  revert n. induction s as [|c s IH]; intros n Hd; [done|].
  simpl in *. pose proof (digit_of_decimal c) as Hdig.
  destruct (digit_of c) as [d|]; [|done].
  destruct (d >=? 10); [done|]. destruct Hdig as [Hc _]. rewrite Hc in Hd.
  destruct (n >=? cutoff10); [done|].
  match goal with |- context [if ?b then _ else _] => destruct b end; [done|].
  by apply IH.
Qed.

Lemma ParseUint_loop_range (s : string) (n : Z) :
  snd (ParseUint_loop s n) = Some ErrRange →
  fst (ParseUint_loop s n) = maxUint64.
Proof.
  revert n. induction s as [|c s IH]; intros n; [done|].
  simpl. destruct (digit_of c) as [d|]; [|done].
  destruct (d >=? 10); [done|].
  destruct (n >=? cutoff10); [done|].
  match goal with |- context [if ?b then _ else _] => destruct b end; [done|].
  apply IH.
Qed.

Lemma ParseUint_loop_None (s : string) (n v : Z) :
  0 <= n <= maxUint64 →
  ParseUint_loop s n = (v, None) ↔
  all_digits s = true ∧ v = digits_val n s ∧ v <= maxUint64.
Proof.
  intros Hn. destruct (all_digits s) eqn:Hd.
  - rewrite ParseUint_loop_digits by done.
    destruct (Z.leb_spec (digits_val n s) maxUint64).
    + split; [intros [= <-]; done|]. by intros (_ & -> & _).
    + split; [done|]. intros (_ & -> & ?). lia.
  - pose proof (ParseUint_loop_not_digits s n Hd) as Hne.
    split; [|by intros [? _]]. intros E. by rewrite E in Hne.
Qed.

Lemma ParseUint_cases (t : string) :
  (t ≠ "" ∧ all_digits t = true ∧
   ParseUint t = if digits_val 0 t <=? maxUint64 then (digits_val 0 t, None)
                 else (maxUint64, Some ErrRange)) ∨
  ((t = "" ∨ all_digits t = false) ∧
   (snd (ParseUint t) = Some ErrSyntax ∨ ParseUint t = (maxUint64, Some ErrRange))).
Proof.
  destruct t as [|c t]; [right; split; [by left|by left]|].
  destruct (all_digits (String c t)) eqn:Hd.
  - left. split; [done|]. split; [done|].
    apply (ParseUint_loop_digits (String c t) 0 Hd). unfold maxUint64. lia.
  - right. split; [by right|].
    pose proof (ParseUint_loop_not_digits (String c t) 0 Hd) as Hne.
    pose proof (ParseUint_loop_range (String c t) 0) as Hr.
    change (ParseUint (String c t)) with (ParseUint_loop (String c t) 0).
    destruct (ParseUint_loop (String c t) 0) as [un [[]|]]; simpl in *.
    + by left.
    + right. by rewrite Hr.
    + done.
Qed.

Lemma ParseInt_magnitude_ok (neg : bool) (t : string) (v : Z) :
  ParseInt_magnitude neg t = (v, None) ↔
  t ≠ "" ∧ all_digits t = true ∧
  is_int (if neg then - digits_val 0 t else digits_val 0 t) ∧
  v = (if neg then - digits_val 0 t else digits_val 0 t).
Proof.
  unfold ParseInt_magnitude, intSize, is_int.
  change (2 ^ (64 - 1)) with 9223372036854775808.
  change (2 ^ 63) with 9223372036854775808.
  destruct (ParseUint_cases t) as [(Hne & Hd & E)|[Hbad Herr]]; [rewrite E; clear E|].
  - pose proof (digits_val_mono t 0 Hd ltac:(lia)) as Hpos.
    unfold maxUint64, to_int64.
    change (2 ^ 64 - 1) with 18446744073709551615.
    change (2 ^ 64) with 18446744073709551616.
    change (2 ^ 63) with 9223372036854775808.
    set (dv := digits_val 0 t) in *.
    destruct (Z.leb_spec dv 18446744073709551615) as [Hfit|Hover].
    + destruct neg; simpl.
      * destruct (Z.gtb_spec dv 9223372036854775808) as [Hgt|Hle].
        { split; [done|]. intros (_ & _ & ? & _). lia. }
        destruct (Z_lt_le_dec dv 9223372036854775808) as [Hlt|Heq].
        { rewrite (Z.mod_small (dv + _)) by lia.
          replace (dv + 9223372036854775808 - 9223372036854775808) with dv by lia.
          rewrite (Z.mod_small (- dv + _)) by lia.
          split; [intros [= <-]|intros (_ & _ & _ & ->)]; repeat split; try done; try lia.
          f_equal. lia. }
        { assert (dv = 9223372036854775808) as -> by lia.
          split; [intros [= <-]|intros (_ & _ & _ & ->)]; repeat split; try done. }
      * destruct (Z.geb_spec dv 9223372036854775808) as [Hge|Hlt].
        { split; [done|]. intros (_ & _ & ? & _). lia. }
        rewrite (Z.mod_small (dv + _)) by lia.
        split; [intros [= <-]|intros (_ & _ & _ & ->)]; repeat split; try done; try lia.
        f_equal. lia.
    + split.
      * destruct neg; simpl; done.
      * intros (_ & _ & ? & _). destruct neg; lia.
  - split.
    + intros E. exfalso. destruct Herr as [Herr|Herr].
      * destruct (ParseUint t) as [un [[]|]]; simpl in Herr; done.
      * rewrite Herr in E. destruct neg; simpl in E; done.
    + intros (Hne & Hd & _). destruct Hbad; congruence.
Qed.

(** [ParseInt] returns without error exactly on the base-10 numerals whose
    value is an [int], and then returns the value. *)
Lemma ParseInt_ok (s : string) (v : Z) :
  ParseInt s = (v, None) ↔
  base10 s = true ∧ is_int (base10_val s) ∧ v = base10_val s.
Proof.
  destruct s as [|c s]; [simpl; split; [done|by intros [? _]]|].
  assert (∀ t, negb (String.eqb t "") = true ↔ t ≠ "") as Hnonempty.
  { intros t. rewrite negb_true_iff. split.
    - intros H ->. done.
    - intros H. by apply String.eqb_neq. }
  unfold ParseInt, base10, base10_val.
  destruct (Ascii.eqb_spec c "+") as [->|Hplus].
  - simpl.
    rewrite ParseInt_magnitude_ok, andb_true_iff, Hnonempty. tauto.
  - destruct (Ascii.eqb_spec c "-") as [->|Hminus].
    + simpl.
      rewrite ParseInt_magnitude_ok, andb_true_iff, Hnonempty. tauto.
    + simpl orb. cbv iota.
      rewrite ParseInt_magnitude_ok. split; [tauto|]. intros (? & ? & ?). done.
Qed.

Lemma is_digit_range (c : ascii) :
  is_digit c = true → 0 <= byte_val c - 48 <= 9.
Proof.
  unfold is_digit. intros H. apply andb_prop in H as [H1 H2].
  apply Z.leb_le in H1. apply Z.leb_le in H2. lia.
Qed.

(** The fast path does not wrap: at most 18 digits stay below [10^18]. *)
Lemma Atoi_fast_loop_digits (s : string) (n : Z) :
  all_digits s = true → 0 <= n → (n + 1) * 10 ^ len s <= 10 ^ 18 →
  Atoi_fast_loop s n = Some (digits_val n s).
Proof.
  unfold len. revert n.
  induction s as [|c s IH]; intros n Hd Hn Hb; [done|].
  simpl in Hd. apply andb_prop in Hd as [Hc Hs].
  pose proof (is_digit_range c Hc) as Hd9.
  simpl. rewrite fast_digit, Hc. simpl.
  rewrite Z.mod_small by lia.
  simpl String.length in Hb. rewrite Nat2Z.inj_succ, Z.pow_succ_r in Hb by lia.
  assert (0 < 10 ^ Z.of_nat (String.length s)) by (apply Z.pow_pos_nonneg; lia).
  rewrite to_int64_small.
  - apply IH; [done|lia|nia].
  - unfold is_int. change (10 ^ 18) with 1000000000000000000 in Hb.
    change (2 ^ 63) with 9223372036854775808. nia.
Qed.

Lemma Atoi_fast_loop_not_digits (s : string) (n : Z) :
  all_digits s = false → Atoi_fast_loop s n = None.
Proof.
  revert n. induction s as [|c s IH]; intros n Hd; [done|].
  simpl in *. rewrite fast_digit.
  destruct (is_digit c); simpl in *; [by apply IH|done].
Qed.

Lemma Atoi_fast_loop_ok (s : string) (v : Z) :
  len s < 19 →
  Atoi_fast_loop s 0 = Some v ↔
  all_digits s = true ∧ v = digits_val 0 s ∧ 0 <= v < 10 ^ 18.
Proof.
  intros Hlen. destruct (all_digits s) eqn:Hd.
  - assert (10 ^ len s <= 10 ^ 18) as Hpow
      by (apply Z.pow_le_mono_r; unfold len in *; lia).
    rewrite Atoi_fast_loop_digits by (done || lia).
    pose proof (digits_val_mono s 0 Hd ltac:(lia)).
    pose proof (digits_val_bound s 0 Hd ltac:(lia)).
    split; [intros [= <-]|intros (_ & -> & _)]; repeat split; done || lia.
  - rewrite Atoi_fast_loop_not_digits by done.
    split; [done|by intros [? _]].
Qed.

(** [Atoi] returns a nil error exactly on the base-10 numerals whose value
    is an [int], and then returns that value. *)
Lemma Atoi_ok (s : string) (v : Z) :
  Atoi s = (v, None) ↔
  base10 s = true ∧ is_int (base10_val s) ∧ v = base10_val s.
Proof.
  unfold Atoi.
  destruct ((0 <? len s) && (len s <? 19)) eqn:Hfast; [|apply ParseInt_ok].
  apply andb_prop in Hfast as [_ Hlt]. apply Z.ltb_lt in Hlt.
  destruct s as [|c s]; [simpl; split; [done|by intros [? _]]|].
  assert (len s < 19) as Hlt' by (unfold len in *; simpl String.length in Hlt; lia).
  assert (∀ t, (len t <? 1) = String.eqb t "") as Hempty.
  { intros [|? t]; [done|]. unfold len. simpl String.length.
    destruct (Z.ltb_spec (Z.of_nat (S (String.length t))) 1); [lia|done]. }
  unfold base10, base10_val, is_int.
  change (10 ^ 18) with 1000000000000000000 in *.
  change (2 ^ 63) with 9223372036854775808.
  destruct (Ascii.eqb_spec c "-") as [->|Hminus]; simpl orb; cbv iota.
  - rewrite Hempty. destruct (String.eqb s ""); simpl; [split; [done|by intros [? _]]|].
    destruct (Atoi_fast_loop s 0) as [n|] eqn:E.
    + apply Atoi_fast_loop_ok in E as (Hd & -> & Hr); [|done].
      rewrite to_int64_small by (unfold is_int; change (2 ^ 63) with 9223372036854775808; lia).
      split; [intros [= <-]|intros (_ & _ & ->)]; repeat split; done || lia.
    + split; [done|]. intros (Hd & _).
      pose proof (Atoi_fast_loop_ok s (digits_val 0 s) Hlt') as [_ Hk].
      destruct (digits_val_bound s 0 Hd ltac:(lia)).
      pose proof (digits_val_mono s 0 Hd ltac:(lia)).
      assert (10 ^ len s <= 10 ^ 18) as Hpow
        by (apply Z.pow_le_mono_r; unfold len in *; lia).
      rewrite Atoi_fast_loop_digits in E by (done || lia). done.
  - destruct (Ascii.eqb_spec c "+") as [->|Hplus]; cbv iota.
    + rewrite Hempty. destruct (String.eqb s ""); simpl; [split; [done|by intros [? _]]|].
      destruct (Atoi_fast_loop s 0) as [n|] eqn:E.
      * apply Atoi_fast_loop_ok in E as (Hd & -> & Hr); [|done].
        split; [intros [= <-]|intros (_ & _ & ->)]; repeat split; done || lia.
      * split; [done|]. intros (Hd & _).
        assert (10 ^ len s <= 10 ^ 18) as Hpow
          by (apply Z.pow_le_mono_r; unfold len in *; lia).
        rewrite Atoi_fast_loop_digits in E by (done || lia). done.
    + simpl andb. cbv iota.
      destruct (Atoi_fast_loop (String c s) 0) as [n|] eqn:E.
      * apply Atoi_fast_loop_ok in E as (Hd & -> & Hr); [|done].
        split; [intros [= <-]|intros (_ & _ & ->)]; repeat split; done || lia.
      * split; [done|]. intros (Hd & _).
        assert (10 ^ len (String c s) <= 10 ^ 18) as Hpow
          by (apply Z.pow_le_mono_r; unfold len in *; lia).
        rewrite Atoi_fast_loop_digits in E by (done || lia). done.
Qed.

End AtoiFacts.

(** ** Sends and the state *)

Section SendFacts.

Lemma chan_state_enqueue (ch ch' : chan) (p : string) (h : Hub) :
  chan_state (enqueue ch p h) ch' =
    if decide (ch = ch') then
      {| queue := queue (chan_state h ch) ++ [p]; closed := closed (chan_state h ch) |}
    else chan_state h ch'.
Proof.
  unfold chan_state, enqueue. simpl.
  destruct (decide (ch = ch')) as [->|Hne].
  - by rewrite lookup_insert_eq.
  - by rewrite lookup_insert_ne.
Qed.

Lemma send_open (ch : chan) (p : string) (h : Hub) :
  closed (chan_state h ch) = false → send ch p h = Ok tt (enqueue ch p h).
Proof. unfold send. by intros ->. Qed.

Lemma send_closed (ch : chan) (p : string) (h : Hub) :
  closed (chan_state h ch) = true → send ch p h = Panic "send on closed channel".
Proof. unfold send. by intros ->. Qed.

Lemma exactly_sent_nil (h : Hub) : exactly_sent h h [].
Proof. split; [done|]. intros ch. simpl. by rewrite app_nil_r. Qed.

Lemma exactly_sent_enqueue (ch : chan) (p : string) (h : Hub) :
  exactly_sent h (enqueue ch p h) [(ch, p)].
Proof.
  split; [done|]. intros ch'. rewrite chan_state_enqueue.
  unfold sent_to. simpl.
  destruct (decide (ch = ch')) as [->|Hne].
  - by rewrite Nat.eqb_refl.
  - apply Nat.eqb_neq in Hne. rewrite Hne. simpl. by rewrite app_nil_r.
Qed.

Lemma exactly_sent_app (h1 h2 h3 : Hub) (l1 l2 : list (chan * string)) :
  exactly_sent h1 h2 l1 → exactly_sent h2 h3 l2 → exactly_sent h1 h3 (l1 ++ l2).
Proof.
  intros [Hc1 Hq1] [Hc2 Hq2]. split; [congruence|].
  intros ch. destruct (Hq1 ch) as [E1 C1], (Hq2 ch) as [E2 C2].
  rewrite E2, E1, C2, C1. split; [|done].
  unfold sent_to. by rewrite List.filter_app, map_app, app_assoc.
Qed.

(** A channel that was open before the sends is open after them. *)
Lemma exactly_sent_closed (h h' : Hub) (l : list (chan * string)) (ch : chan) :
  exactly_sent h h' l → closed (chan_state h' ch) = closed (chan_state h ch).
Proof. intros [_ Hq]. apply Hq. Qed.

(** A rejection: the function ends normally and has sent [text] to the
    sender and nothing else. *)
Lemma send_rejects (ch : chan) (text : string) (h : Hub) :
  closed (chan_state h ch) = false →
  ∃ h', send ch text h = Ok tt h' ∧ exactly_sent h h' [(ch, text)].
Proof.
  intros Hopen. exists (enqueue ch text h).
  split; [by apply send_open|apply exactly_sent_enqueue].
Qed.

End SendFacts.

(** ** The relay loop *)

Section RelayFacts.

(** The prescribed sends depend on the registry only. *)
Lemma relay_sends_registry (h h1 : Hub) (sender : Client) (senderID : Z)
    (body : string) (destList : list string) :
  clients h1 = clients h →
  relay_sends h1 sender senderID body destList =
  relay_sends h sender senderID body destList.
Proof. intros E. unfold relay_sends, relay_send. by rewrite E. Qed.

(** The loop sends what the protocol prescribes, token by token, as long
    as it never meets a closed channel. *)
Lemma parseRelayString_loop_sends (message : HubMessage) (senderID : Z)
    (body : string) (destList : list string) (h : Hub) :
  (∀ s, s ∈ relay_sends h (client message) senderID body destList →
        closed (chan_state h (fst s)) = false) →
  ∃ h', parseRelayString_loop message (Some senderID) body destList h = Ok tt h' ∧
        exactly_sent h h' (relay_sends h (client message) senderID body destList).
Proof.
  revert h. induction destList as [|u destList IH]; intros h Hopen.
  - exists h. split; [done|apply exactly_sent_nil].
  - set (s := relay_send h (client message) senderID body u).
    assert (closed (chan_state h (fst s)) = false) as Hu
      by (apply Hopen; simpl; left).
    pose (h1 := enqueue (fst s) (snd s) h).
    assert (exactly_sent h h1 [s]) as Hs.
    { replace [s] with [(fst s, snd s)] by (by destruct s). apply exactly_sent_enqueue. }
    assert (relay_sends h1 (client message) senderID body destList =
            relay_sends h (client message) senderID body destList) as Hsame
      by (by apply relay_sends_registry).
    destruct (IH h1) as (h' & Hrun & Hsent).
    { intros s' Hs'. rewrite (exactly_sent_closed h h1 [s]) by done.
      apply Hopen. simpl. right. by rewrite <- Hsame. }
    exists h'. split.
    + simpl. M_step. unfold get_client.
      subst s h1. unfold relay_send in *.
      destruct (clients h !! fst (Atoi u)) as [destClient|] eqn:Hlook; simpl in *.
      * rewrite send_open by done. exact Hrun.
      * rewrite send_open by done. exact Hrun.
    + change (relay_sends h (client message) senderID body (u :: destList))
        with ([s] ++ relay_sends h (client message) senderID body destList).
      apply (exactly_sent_app h h1 h'); [done|]. by rewrite <- Hsame.
Qed.

End RelayFacts.

(** ** The checks of [parseRelayString] *)

Section RelayChecks.

Lemma llen_Split_pos (s : string) (sep : ascii) : 1 <= llen (Split s sep).
Proof. unfold llen. rewrite Split_length. lia. Qed.

(** After the checks, [parseRelayString] is its loop. *)
Lemma parseRelayString_accepted (message : HubMessage) (h : Hub) :
  relay_syntax_ok message → relay_within_limits message →
  parseRelayString message h =
  parseRelayString_loop message
    (port_ptr (getPortFromAddress (RemoteAddr (ws (client message)))))
    (relay_body message) (relay_dests message) h.
Proof.
  intros (Hlen & Hu & Hb) (Hcount & Hsize).
  unfold parseRelayString.
  fold (relay_fields message). rewrite Hlen, Hu, Hb. simpl.
  fold (relay_users message). fold (relay_body message). fold (relay_dests message).
  pose proof (llen_Split_pos (relay_users message) ";") as Hpos.
  fold (relay_dests message) in Hpos.
  destruct (Z.eqb_spec (llen (relay_dests message)) 0); [lia|].
  destruct (Z.gtb_spec (llen (relay_dests message)) maxReceiversPerMessage); [lia|].
  destruct (Z.gtb_spec (len (relay_body message)) maxBodySize); [lia|].
  done.
Qed.

Lemma relay_fields_rejected (message : HubMessage) (h : Hub) :
  closed (chan_state h (data (client message))) = false →
  llen (relay_fields message) ≠ 2 →
  rejected_with message h "relay message should contain users and body fields".
Proof.
  intros Hopen Hlen. unfold rejected_with, parseRelayString.
  fold (relay_fields message).
  destruct (Z.eqb_spec (llen (relay_fields message)) 2); [done|].
  by apply send_rejects.
Qed.

End RelayChecks.

(** ** How a printed number starts *)

Section SprintFacts.

Lemma string_of_uint_head (d : Decimal.uint) :
  d ≠ Decimal.Nil →
  ∃ c r, NilEmpty.string_of_uint d = String c r ∧ is_digit c = true.
Proof.
  destruct d; [done|..]; intros _; simpl; eexists _, _; (split; [reflexivity|done]).
Qed.

(** A numeral printed by [Sprint] starts with a digit or with the minus
    sign. *)
Lemma Sprint_head (n : Z) :
  ∃ c r, Sprint n = String c r ∧ (is_digit c = true ∨ c = "-"%char).
Proof.
  unfold Sprint. destruct n as [|p|p]; simpl.
  - eexists _, _. split; [reflexivity|by left].
  - pose proof (Unsigned.to_uint_nonnil p) as Hnn.
    destruct (string_of_uint_head _ Hnn) as (c & r & E & Hc).
    exists c, r. split; [|by left].
    unfold NilZero.string_of_uint. by destruct (Pos.to_uint p).
  - eexists _, _. split; [reflexivity|by right].
Qed.

End SprintFacts.

(** ** What [parseRelayString] has sent when it returns *)

Section NeverSent.

(** When the loop returns, it has sent what the protocol prescribes. *)
Lemma parseRelayString_loop_returns (message : HubMessage) (senderID : Z)
    (body : string) (destList : list string) (h h' : Hub) :
  parseRelayString_loop message (Some senderID) body destList h = Ok tt h' →
  exactly_sent h h' (relay_sends h (client message) senderID body destList).
Proof.
  revert h. induction destList as [|u destList IH]; intros h.
  - intros [= <-]. apply exactly_sent_nil.
  - simpl. M_step. unfold get_client.
    set (s := relay_send h (client message) senderID body u).
    assert (∀ h1, exactly_sent h h1 [s] → 
              parseRelayString_loop message (Some senderID) body destList h1 = Ok tt h' →
              exactly_sent h h' (s :: relay_sends h (client message) senderID body destList)) as Hstep.
    { intros h1 Hs Hrun. apply IH in Hrun.
      rewrite (relay_sends_registry h h1) in Hrun by apply Hs.
      by apply (exactly_sent_app h h1 h' [s]). }
    subst s. unfold relay_send in *.
    destruct (clients h !! fst (Atoi u)) as [destClient|]; simpl; unfold send.
    + destruct (closed (chan_state h (data destClient))); [done|].
      apply Hstep, exactly_sent_enqueue.
    + destruct (closed (chan_state h (data (client message)))); [done|].
      apply Hstep, exactly_sent_enqueue.
Qed.

Lemma relay_send_text (h : Hub) (sender : Client) (senderID : Z) (body u : string) :
  snd (relay_send h sender senderID body u) ≠ "unexpected message format".
Proof.
  unfold relay_send. destruct (clients h !! fst (Atoi u)) as [dest|]; simpl; [|done].
  destruct (Sprint_head senderID) as (c0 & r & -> & Hc). simpl.
  intros [= -> _]. by destruct Hc.
Qed.

Lemma send_returns (ch : chan) (text : string) (h h' : Hub) :
  send ch text h = Ok tt h' → exactly_sent h h' [(ch, text)].
Proof.
  unfold send. destruct (closed (chan_state h ch)); [done|].
  intros [= <-]. apply exactly_sent_enqueue.
Qed.

(** Whatever [parseRelayString] has sent when it returns, it is not the
    reply of the empty-list branch. *)
Lemma parseRelayString_returns (message : HubMessage) (senderID : Z) (h h' : Hub) :
  getPortFromAddress (RemoteAddr (ws (client message))) = inl senderID →
  parseRelayString message h = Ok tt h' →
  ∃ sends, exactly_sent h h' sends ∧
           ∀ s, s ∈ sends → snd s ≠ "unexpected message format".
Proof.
  intros Hid.
  unfold parseRelayString. rewrite Hid. simpl port_ptr.
  fold (relay_fields message).
  assert (∀ text, text ≠ "unexpected message format" →
            send (data (client message)) text h = Ok tt h' →
            ∃ sends, exactly_sent h h' sends ∧
              ∀ s, s ∈ sends → snd s ≠ "unexpected message format") as Hone.
  { intros text Htext Hrun. exists [(data (client message), text)].
    split; [by apply send_returns|].
    intros s Hs. apply list_elem_of_singleton in Hs. by subst s. }
  destruct (negb (llen (relay_fields message) =? 2)); [by apply Hone|].
  destruct (negb (HasPrefix (nth 0 (relay_fields message) "") "users=")); [by apply Hone|].
  destruct (negb (HasPrefix (nth 1 (relay_fields message) "") "body=")); [by apply Hone|].
  fold (relay_users message). fold (relay_body message). fold (relay_dests message).
  pose proof (llen_Split_pos (relay_users message) ";") as Hpos.
  fold (relay_dests message) in Hpos.
  destruct (Z.eqb_spec (llen (relay_dests message)) 0); [lia|].
  destruct (llen (relay_dests message) >? maxReceiversPerMessage); [by apply Hone|].
  destruct (len (relay_body message) >? maxBodySize); [by apply Hone|].
  intros Hrun. apply parseRelayString_loop_returns in Hrun.
  eexists. split; [exact Hrun|].
  intros s Hs. unfold relay_sends in Hs. apply list_elem_of_fmap in Hs as (u & -> & _).
  apply relay_send_text.
Qed.

End NeverSent.

(** ** The listing *)

Section ListingFacts.

Lemma append_assoc (s t u : string) : (s +:+ t) +:+ u = s +:+ (t +:+ u).
Proof.
  induction s as [|c s IH]; [done|].
  change (String c ((s +:+ t) +:+ u) = String c (s +:+ (t +:+ u))).
  by rewrite IH.
Qed.

Lemma append_empty_r (s : string) : s +:+ "" = s.
Proof.
  induction s as [|c s IH]; [done|].
  change (String c (s +:+ "") = String c s). by rewrite IH.
Qed.

(** [clientsToBytes] neither sends nor changes anything; on clients whose
    addresses resolve it renders their identities. *)
Lemma clientsToBytes_loop_listing (cs : list Client) (ids : list Z)
    (i : Z) (value : string) (h : Hub) :
  Forall2 (λ c id, getPortFromAddress (RemoteAddr (ws c)) = inl id) cs ids →
  clientsToBytes_loop i cs value h = Ok (value +:+ listing_lines i ids) h.
Proof.
  intros Hids. revert i value.
  induction Hids as [|c id cs ids Hc _ IH]; intros i value.
  - simpl. unfold mret, M_mret, M_ret. by rewrite append_empty_r.
  - simpl. rewrite Hc. simpl. M_step. simpl.
    rewrite IH. f_equal. by rewrite !append_assoc.
Qed.

Lemma clientsToBytes_listing (cs : list Client) (ids : list Z) (h : Hub) :
  Forall2 (λ c id, getPortFromAddress (RemoteAddr (ws c)) = inl id) cs ids →
  clientsToBytes cs h = Ok (listing ids) h.
Proof.
  intros Hids. unfold clientsToBytes, listing.
  rewrite (clientsToBytes_loop_listing cs ids) by done.
  by rewrite append_assoc.
Qed.

(** The loop of [getAllUsersExcept] keeps the clients stored under the
    other keys, in the order of the enumeration. *)
Lemma getAllUsersExcept_loop_filter (user : Z) (entries : list (Z * Client))
    (cs : list Client) :
  getAllUsersExcept_loop user entries cs =
  cs ++ (filter (λ kv, kv.1 ≠ user) entries).*2.
Proof.
  revert cs. induction entries as [|[k v] entries IH]; intros cs; simpl.
  - by rewrite app_nil_r.
  - rewrite filter_cons. simpl.
    destruct (Z.eqb_spec k user) as [->|Hne]; simpl.
    + rewrite decide_False by (intros ?; done). apply IH.
    + rewrite decide_True by done. rewrite IH. simpl. by rewrite <- app_assoc.
Qed.

End ListingFacts.

(** ** The other registered identities *)

Section Registry.

Variable range_order : gmap Z Client → list (Z * Client).
Hypothesis range_order_perm : ∀ m, range_order m ≡ₚ map_to_list m.

(** The identities that a [list] from the client with identity [id]
    enumerates. *)
Lemma others_permutation (m : gmap Z Client) (id : Z) :
  (filter (λ kv : Z * Client, kv.1 ≠ id) (range_order m)).*1 ≡ₚ
  elements (dom m ∖ {[id]}).
Proof.
  apply NoDup_Permutation.
  - assert (NoDup ((range_order m).*1)) as Hnd
      by (rewrite range_order_perm; apply NoDup_fst_map_to_list).
    revert Hnd. induction (range_order m) as [|[k v] l IH]; [done|].
    rewrite fmap_cons, NoDup_cons. intros [Hk Hl].
    rewrite filter_cons. destruct (decide ((k, v).1 ≠ id)); [|by apply IH].
    rewrite fmap_cons, NoDup_cons. split; [|by apply IH].
    intros Hin. apply Hk. apply list_elem_of_fmap in Hin as ([k' v'] & -> & Hin).
    apply list_elem_of_filter in Hin as [_ Hin].
    apply list_elem_of_fmap. by exists (k', v').
  - apply NoDup_elements.
  - intros k. rewrite elem_of_elements, elem_of_difference, elem_of_dom, not_elem_of_singleton.
    rewrite list_elem_of_fmap. split.
    + intros ([k' v] & -> & Hin). apply list_elem_of_filter in Hin as [Hne Hin].
      rewrite range_order_perm in Hin. apply elem_of_map_to_list in Hin.
      split; [by exists v|done].
    + intros [[v Hv] Hne]. exists (k, v). split; [done|].
      apply list_elem_of_filter. split; [done|].
      rewrite range_order_perm. by apply elem_of_map_to_list.
Qed.

Lemma others_identities (h : Hub) (id : Z) :
  keyed_by_identity h →
  Forall2 (λ c k, getPortFromAddress (RemoteAddr (ws c)) = inl k)
    ((filter (λ kv : Z * Client, kv.1 ≠ id) (range_order (clients h))).*2)
    ((filter (λ kv : Z * Client, kv.1 ≠ id) (range_order (clients h))).*1).
Proof.
  intros Hkeyed.
  assert (∀ kv, kv ∈ filter (λ kv : Z * Client, kv.1 ≠ id) (range_order (clients h)) →
                getPortFromAddress (RemoteAddr (ws kv.2)) = inl kv.1) as Hall.
  { intros [k v] Hin. apply list_elem_of_filter in Hin as [_ Hin].
    rewrite range_order_perm in Hin. apply elem_of_map_to_list in Hin.
    by apply Hkeyed. }
  induction (filter _ (range_order (clients h))) as [|[k v] l IH]; simpl; [constructor|].
  constructor.
  - apply (Hall (k, v)). left.
  - apply IH. intros kv Hin. apply Hall. by right.
Qed.

(** The reply to [list]. *)
Lemma handleMessage_list (sender : Client) (id : Z) (h : Hub) :
  keyed_by_identity h →
  getPortFromAddress (RemoteAddr (ws sender)) = inl id →
  closed (chan_state h (data sender)) = false →
  ∃ ids, handleMessage range_order {| contents := "list"; client := sender |} h =
           Ok tt (enqueue (data sender) (listing ids) h) ∧
         ids ≡ₚ elements (dom (clients h) ∖ {[id]}).
Proof.
  intros Hkeyed Hid Hopen.
  exists ((filter (λ kv : Z * Client, kv.1 ≠ id) (range_order (clients h))).*1).
  split; [|apply others_permutation].
  unfold handleMessage. simpl. rewrite Hid. simpl.
  M_step. unfold getAllUsersExcept.
  rewrite getAllUsersExcept_loop_filter. simpl.
  rewrite (clientsToBytes_listing _ _ h (others_identities h id Hkeyed)).
  by apply send_open.
Qed.

End Registry.

(** ** The states the serializer reaches *)

Section Reachable.

Variable range_order : gmap Z Client → list (Z * Client).

Lemma clientsToBytes_loop_state (cs : list Client) (i : Z) (value s : string)
    (h h' : Hub) :
  clientsToBytes_loop i cs value h = Ok s h' → h' = h.
Proof.
  revert i value. induction cs as [|c cs IH]; intros i value.
  - by intros [= _ <-].
  - simpl. destruct (getPortFromAddress (RemoteAddr (ws c))); simpl; [|done].
    M_step. simpl. apply IH.
Qed.

(** [handleMessage] leaves the registry as it is. *)
Lemma handleMessage_registry (hubM : HubMessage) (h h' : Hub) :
  handleMessage range_order hubM h = Ok tt h' → clients h' = clients h.
Proof.
  unfold handleMessage.
  destruct (getPortFromAddress (RemoteAddr (ws (client hubM)))) as [port|err] eqn:Hid; [|done].
  assert (∀ text, send (data (client hubM)) text h = Ok tt h' → clients h' = clients h) as Hsend.
  { intros text Hrun. by destruct (send_returns _ _ _ _ Hrun). }
  destruct (String.eqb (contents hubM) "id"); [apply Hsend|].
  destruct (String.eqb (contents hubM) "list").
  - M_step. unfold getAllUsersExcept.
    destruct (clientsToBytes _ h) as [listing h1| |] eqn:E; [|done..].
    apply clientsToBytes_loop_state in E as ->. apply Hsend.
  - destruct (HasPrefix (contents hubM) "relay"); [|apply Hsend].
    intros Hrun. destruct (parseRelayString_returns _ _ _ _ Hid Hrun) as (? & [? _] & _).
    done.
Qed.

(** One round of the loop keeps the registry keyed by identity, forgets
    no identity, and registers the client of a [Connect]. *)
Lemma handle_select_registry (e : Event) (flow : Flow) (h h' : Hub) :
  handle_select range_order e h = Ok flow h' →
  flow = Continue ∧
  (keyed_by_identity h → keyed_by_identity h') ∧
  (∀ k, is_Some (clients h !! k) → is_Some (clients h' !! k)) ∧
  (∀ c, e = Connect c →
        ∃ id, getPortFromAddress (RemoteAddr (ws c)) = inl id ∧
              is_Some (clients h' !! id)).
Proof.
  destruct e as [c|c|m]; simpl.
  - destruct (getPortFromAddress (RemoteAddr (ws c))) as [port|err] eqn:Hid; [|done].
    intros [= <- <-]. simpl. split; [done|]. split; [|split].
    + intros Hkeyed k c'. simpl. destruct (decide (port = k)) as [->|Hne].
      * rewrite lookup_insert_eq. by intros [= <-].
      * rewrite lookup_insert_ne by done. apply Hkeyed.
    + intros k Hk. destruct (decide (port = k)) as [->|Hne].
      * by rewrite lookup_insert_eq.
      * by rewrite lookup_insert_ne.
    + intros c' [= <-]. exists port. split; [done|]. by rewrite lookup_insert_eq.
  - M_step. unfold close.
    destruct (closed (chan_state h (data c))); [done|].
    intros [= <- <-]. simpl. done.
  - M_step.
    destruct (handleMessage range_order m h) as [[] h1| |] eqn:E; [|done..].
    intros [= <- <-]. apply handleMessage_registry in E.
    unfold keyed_by_identity. rewrite E. done.
Qed.

(** While [handle] is running, the registry is keyed by identity and holds
    every client whose [Connect] was handled. *)
Lemma handle_registry (events : list Event) (flow : Flow) (h0 h : Hub) :
  handle range_order events h0 = Ok flow h →
  keyed_by_identity h0 →
  flow = Continue ∧ keyed_by_identity h ∧
  (∀ k, is_Some (clients h0 !! k) → is_Some (clients h !! k)) ∧
  (∀ c, In (Connect c) events →
        ∃ id, getPortFromAddress (RemoteAddr (ws c)) = inl id ∧
              is_Some (clients h !! id)).
Proof.
  revert h0. induction events as [|e events IH]; intros h0.
  - intros [= <- <-] Hkeyed. done.
  - simpl. M_step.
    destruct (handle_select range_order e h0) as [flow1 h1| |] eqn:E; [|done..].
    destruct (handle_select_registry _ _ _ _ E) as (-> & Hk & Hmono & Hconn).
    intros Hrun Hkeyed.
    destruct (IH h1 Hrun (Hk Hkeyed)) as (-> & Hkeyed' & Hmono' & Hconn').
    split; [done|]. split; [done|]. split; [by auto|].
    intros c [->|Hin]; [|by apply Hconn'].
    destruct (Hconn c eq_refl) as (id & Hid & Hreg).
    exists id. split; [done|]. by apply Hmono'.
Qed.

Lemma keyed_by_identity_init : keyed_by_identity InitHub.
Proof. intros k c. unfold InitHub. simpl. by rewrite lookup_empty. Qed.

End Reachable.

(** ** [Sprint] writes what [Atoi] reads *)

Section SprintRoundTrip.

Lemma string_of_uint_digits (d : Decimal.uint) :
  all_digits (NilEmpty.string_of_uint d) = true.
Proof. induction d; simpl; done. Qed.

Lemma digits_val_of_uint_acc (d : Decimal.uint) (acc : positive) :
  digits_val (Zpos acc) (NilEmpty.string_of_uint d) = Zpos (Pos.of_uint_acc d acc).
Proof.
  revert acc. induction d as [|d IH|d IH|d IH|d IH|d IH|d IH|d IH|d IH|d IH|d IH];
    intros acc; [done|..];
    cbn [NilEmpty.string_of_uint digits_val Pos.of_uint_acc];
    rewrite <- IH; f_equal; unfold byte_val; simpl; lia.
Qed.

Lemma digits_val_of_uint (d : Decimal.uint) :
  digits_val 0 (NilEmpty.string_of_uint d) = Z.of_N (Pos.of_uint d).
Proof.
  induction d as [|d IH|d IH|d IH|d IH|d IH|d IH|d IH|d IH|d IH|d IH]; [done|exact IH|..];
    cbn [NilEmpty.string_of_uint digits_val Pos.of_uint N.of_num_uint Z.of_N];
    rewrite <- digits_val_of_uint_acc; f_equal.
Qed.

(** [Sprint] writes the base-10 numeral of its argument. *)
Lemma Sprint_base10 (n : Z) :
  base10 (Sprint n) = true ∧ base10_val (Sprint n) = n.
Proof.
  unfold Sprint. destruct n as [|p|p]; [done|..]; simpl Z.to_int.
  - pose proof (Unsigned.to_uint_nonnil p) as Hnn.
    pose proof (Unsigned.of_to p) as Hof.
    pose proof (string_of_uint_digits (Pos.to_uint p)) as Hd.
    pose proof (digits_val_of_uint (Pos.to_uint p)) as Hv.
    rewrite Hof in Hv. simpl in Hv.
    destruct (string_of_uint_head _ Hnn) as (c & r & E & Hc).
    assert (NilZero.string_of_int (Decimal.Pos (Pos.to_uint p)) =
            NilEmpty.string_of_uint (Pos.to_uint p)) as ->
      by (simpl; unfold NilZero.string_of_uint; by destruct (Pos.to_uint p)).
    rewrite E in *. unfold base10, base10_val.
    assert (Ascii.eqb c "-" = false ∧ Ascii.eqb c "+" = false) as [-> ->].
    { split; apply Ascii.eqb_neq; intros ->; done. }
    done.
  - pose proof (Unsigned.to_uint_nonnil p) as Hnn.
    pose proof (Unsigned.of_to p) as Hof.
    pose proof (string_of_uint_digits (Pos.to_uint p)) as Hd.
    pose proof (digits_val_of_uint (Pos.to_uint p)) as Hv.
    rewrite Hof in Hv. simpl in Hv.
    destruct (string_of_uint_head _ Hnn) as (c & r & E & Hc).
    assert (NilZero.string_of_int (Decimal.Neg (Pos.to_uint p)) =
            String "-" (NilEmpty.string_of_uint (Pos.to_uint p))) as ->
      by (simpl; unfold NilZero.string_of_uint; by destruct (Pos.to_uint p)).
    unfold base10, base10_val. simpl Ascii.eqb. simpl orb. cbv iota.
    rewrite Hv, Hd, E. done.
Qed.

(** What [Sprint] writes for an [int], [Atoi] reads back. *)
Lemma Atoi_Sprint (n : Z) : is_int n → Atoi (Sprint n) = (n, None).
Proof.
  intros Hint. destruct (Sprint_base10 n) as [Hb Hv].
  apply Atoi_ok. by rewrite Hv.
Qed.

(** A port that [getPortFromAddress] returns is an [int]. *)
Lemma getPortFromAddress_int (a : string) (port : Z) :
  getPortFromAddress a = inl port → is_int port.
Proof.
  unfold getPortFromAddress.
  destruct (negb (llen (Split a ":") =? 2)); [done|].
  destruct (Atoi (nth 1 (Split a ":") "")) as [v [e|]] eqn:E; [done|].
  intros [= <-]. by apply Atoi_ok in E as (_ & Hint & ->).
Qed.

End SprintRoundTrip.

(** ** Numerals hold no colon *)

Section AddressFacts.

Lemma all_digits_no_colon (s : string) : all_digits s = true → count ":" s = O.
Proof.
  induction s as [|c s IH]; simpl; [done|].
  intros H. apply andb_prop in H as [Hc Hs]. rewrite (IH Hs).
  destruct (Ascii.eqb_spec c ":") as [->|]; [done|done].
Qed.

Lemma base10_no_colon (s : string) : base10 s = true → count ":" s = O.
Proof.
  destruct s as [|c s]; [done|]. unfold base10.
  destruct (Ascii.eqb_spec c "-") as [->|Hm]; simpl orb; cbv iota.
  - intros H. apply andb_prop in H as [_ Hs]. simpl. by apply all_digits_no_colon.
  - destruct (Ascii.eqb_spec c "+") as [->|Hp]; cbv iota.
    + intros H. apply andb_prop in H as [_ Hs]. simpl. by apply all_digits_no_colon.
    + apply all_digits_no_colon.
Qed.

End AddressFacts.


(** * The claims *)

(** ** C1: the registry and Disconnect *)

(** Handling a [Disconnect] closes the client's queue and leaves the
    registry as it was. *)
Lemma Disconnect_keeps_registry (range_order : gmap Z Client → list (Z * Client))
    (c : Client) (flow : Flow) (h h' : Hub) :
  handle_select range_order (Disconnect c) h = Ok flow h' →
  clients h' = clients h ∧ closed (chan_state h' (data c)) = true.
Proof.
  simpl. M_step. unfold close.
  destruct (closed (chan_state h (data c))); [done|].
  intros [= <- <-]. split; [done|].
  unfold chan_state. simpl. by rewrite lookup_insert_eq.
Qed.

(** C1, the code on a failing input.  The specification requires that
    handling a Disconnect removes the client's identity from the clients
    map.  After [Connect alice; Disconnect alice] the serializer is still
    running, the queue of [alice] is closed, and 5000, the identity of
    [alice], is still a key of the registry.  A relay that [bob] then
    addresses to 5000 finds the stale entry and sends on the closed
    channel, which panics. *)
Theorem disconnect_keeps_registry_entry
    (range_order : gmap Z Client → list (Z * Client)) :
  (∃ h, handle range_order [Connect alice; Disconnect alice] InitHub = Ok Continue h ∧
        clients h !! 5000 = Some alice ∧
        closed (chan_state h (data alice)) = true) ∧
  handle range_order
    [Connect alice; Connect bob; Disconnect alice;
     Message (says bob "relay|users=5000,body=hi")] InitHub =
  Panic "send on closed channel".
Proof.
  split; [|reflexivity].
  eexists. split; [reflexivity|]. split; reflexivity.
Qed.

(** ** C2: a Connect whose address does not resolve *)

(** Whatever the state, a [Connect] whose address does not resolve leaves
    [handle] blocked in its send on [hub.disconnect], before the [return]
    that follows it: no later event is handled, and the state is the one
    before the event (the connection's queue has not been closed). *)
Lemma Connect_unresolved_blocks (range_order : gmap Z Client → list (Z * Client))
    (c : Client) (err : error) (events : list Event) (h : Hub) :
  getPortFromAddress (RemoteAddr (ws c)) = inr err →
  handle range_order (Connect c :: events) h = Blocked h.
Proof.
  intros Herr. simpl. M_step. by rewrite Herr.
Qed.

(** C2, the code on a failing input.  The specification requires that a
    Connect whose address fails identity resolution costs only that
    connection, which is disconnected, and that the loop goes on with the
    next events.  The address of [carol] does not resolve, and [handle],
    given the Connect of [carol] first, handles none of the events that
    follow: it never leaves the send on [hub.disconnect], and the queue of
    [carol] is not closed. *)
Theorem connect_failure_stops_serializer
    (range_order : gmap Z Client → list (Z * Client)) (events : list Event) :
  getPortFromAddress (RemoteAddr (ws carol)) =
    inr (Errorf "error reading the address: [::1]:7000") ∧
  handle range_order (Connect carol :: events) InitHub = Blocked InitHub ∧
  closed (chan_state InitHub (data carol)) = false.
Proof. repeat split; reflexivity. Qed.

(** ** C3: identity resolution *)

(** C3, as amended.  [getPortFromAddress] splits the address on every
    colon.  It returns a port exactly when the address is [host:p] with no
    colon in [host], [p] a base-10 integer (an optional sign, then decimal
    digits only) whose value is in the range of [int]; the port is that
    value.  In every other case it returns an error. *)
Theorem getPortFromAddress_resolves (a : string) :
  (∀ port, getPortFromAddress a = inl port ↔
     ∃ host p, a = host +:+ String ":" p ∧ count ":" host = O ∧
               base10 p = true ∧ is_int (base10_val p) ∧ port = base10_val p) ∧
  ((∃ port, getPortFromAddress a = inl port) ∨
   (∃ msg, getPortFromAddress a = inr (Errorf msg))).
Proof.
  split.
  - intros port. unfold getPortFromAddress. split.
    + destruct (Z.eqb_spec (llen (Split a ":")) 2) as [Hlen|]; [|done]. simpl.
      assert (length (Split a ":") = 2%nat) as Hlen' by (unfold llen in Hlen; lia).
      apply Split_two in Hlen' as (host & p & -> & Hhost & Hp).
      rewrite Split_two_fields by done. simpl.
      destruct (Atoi p) as [v [e|]] eqn:E; [done|].
      intros [= <-]. apply Atoi_ok in E as (Hb & Hint & ->).
      by exists host, p.
    + intros (host & p & -> & Hhost & Hb & Hint & ->).
      rewrite Split_two_fields by (done || by apply base10_no_colon). simpl.
      assert (Atoi p = (base10_val p, None)) as -> by (by apply Atoi_ok).
      done.
  - destruct (getPortFromAddress a) as [port|[msg]]; [left|right]; eauto.
Qed.

(** C3, counterexample to the property as the specification states it.  Split on its last colon,
    the address [[::1]:8080] has exactly two components and the second is
    the base-10 integer 8080, yet [getPortFromAddress] fails on it; and the
    second component of [h:9223372036854775808] is a base-10 integer on
    which it fails too.  So success is not equivalent to "the split on the
    last colon yields two components, the second a base-10 integer". *)
Lemma getPortFromAddress_last_colon_counterexample :
  SplitLast "[::1]:8080" ":" = ["[::1]"; "8080"] ∧
  base10 "8080" = true ∧ base10_val "8080" = 8080 ∧
  getPortFromAddress "[::1]:8080" =
    inr (Errorf "error reading the address: [::1]:8080") ∧
  SplitLast "h:9223372036854775808" ":" = ["h"; "9223372036854775808"] ∧
  base10 "9223372036854775808" = true ∧
  getPortFromAddress "h:9223372036854775808" =
    inr (Errorf "error converting port: 9223372036854775808") ∧
  ¬ (∀ a, (∃ port, getPortFromAddress a = inl port) ↔
          (∃ before after, SplitLast a ":" = [before; after] ∧ base10 after = true)).
Proof.
  repeat split; try reflexivity.
  intros H. destruct (proj2 (H "[::1]:8080")) as [port Hport]; [|discriminate Hport].
  by exists "[::1]", "8080".
Qed.

(** ** C4: the order of the syntax checks of a relay *)

(** C4.  With the sender's queue open, [parseRelayString] checks the
    comma-separated fields that follow [relay|] in this order, and at the
    first check that fails it sends one message, to the sender's queue
    only, and returns: not exactly two fields, the "users and body fields"
    message; two fields, the first not starting with [users=], the "users
    field" message; two fields, the first starting with [users=], the
    second not starting with [body=], the "body field" message.
    ([rejected_with] says that nothing else was sent, to any queue.) *)
Theorem relay_syntax_validation_order (message : HubMessage) (h : Hub) :
  closed (chan_state h (data (client message))) = false →
  (llen (relay_fields message) ≠ 2 →
   rejected_with message h "relay message should contain users and body fields") ∧
  (llen (relay_fields message) = 2 →
   HasPrefix (nth 0 (relay_fields message) "") "users=" = false →
   rejected_with message h "relay message should contain users field") ∧
  (llen (relay_fields message) = 2 →
   HasPrefix (nth 0 (relay_fields message) "") "users=" = true →
   HasPrefix (nth 1 (relay_fields message) "") "body=" = false →
   rejected_with message h "relay message should contain a body field").
Proof.
  intros Hopen. split; [by apply relay_fields_rejected|].
  split.
  - intros Hlen Hu. unfold rejected_with, parseRelayString.
    fold (relay_fields message). rewrite Hlen, Hu. simpl.
    by apply send_rejects.
  - intros Hlen Hu Hb. unfold rejected_with, parseRelayString.
    fold (relay_fields message). rewrite Hlen, Hu, Hb. simpl.
    by apply send_rejects.
Qed.

(** C4, witness: [alice] sends a relay with one field, one whose first
    field is not [users=...], and one whose second field is not
    [body=...]. *)
Lemma relay_syntax_validation_order_witness :
  rejected_with (says alice "relay|body=x") two_clients
    "relay message should contain users and body fields" ∧
  rejected_with (says alice "relay|user=6000,body=x") two_clients
    "relay message should contain users field" ∧
  rejected_with (says alice "relay|users=6000,text=x") two_clients
    "relay message should contain a body field".
Proof.
  split; [|split].
  - apply (relay_syntax_validation_order (says alice "relay|body=x") two_clients);
      [reflexivity|vm_compute; discriminate].
  - apply (relay_syntax_validation_order (says alice "relay|user=6000,body=x") two_clients);
      reflexivity.
  - apply (relay_syntax_validation_order (says alice "relay|users=6000,text=x") two_clients);
      reflexivity.
Defined.

(** ** C5: the limits of a relay *)

(** C5.  For a relay that passes the syntax checks, with the sender's
    queue open: more than 255 destination tokens (256 is the first such
    count) are rejected with the max-receivers message; with at most 255
    tokens, a body of more than 1,024,000 bytes (1,024,001 is the first
    such length) is rejected with the body-size message; in both cases the
    message to the sender is the only thing sent.  With at most 255 tokens
    and a body of at most 1,024,000 bytes both checks pass: what
    [parseRelayString] does is the delivery loop. *)
Theorem relay_limits (message : HubMessage) (h : Hub) :
  closed (chan_state h (data (client message))) = false →
  relay_syntax_ok message →
  (llen (relay_dests message) > 255 →
   rejected_with message h "max receivers per message exceeded") ∧
  (llen (relay_dests message) <= 255 → len (relay_body message) > 1024000 →
   rejected_with message h "message body can't exceed 1024kb") ∧
  (llen (relay_dests message) <= 255 → len (relay_body message) <= 1024000 →
   parseRelayString message h =
   parseRelayString_loop message
     (port_ptr (getPortFromAddress (RemoteAddr (ws (client message)))))
     (relay_body message) (relay_dests message) h).
Proof.
  intros Hopen Hok.
  pose proof (llen_Split_pos (relay_users message) ";") as Hpos.
  fold (relay_dests message) in Hpos.
  assert (∀ text,
    (∃ h', (if llen (relay_dests message) =? 0
            then send (data (client message)) "unexpected message format"
            else if llen (relay_dests message) >? maxReceiversPerMessage
            then send (data (client message)) "max receivers per message exceeded"
            else if len (relay_body message) >? maxBodySize
            then send (data (client message)) "message body can't exceed 1024kb"
            else parseRelayString_loop message
              (port_ptr (getPortFromAddress (RemoteAddr (ws (client message)))))
              (relay_body message) (relay_dests message)) h = Ok tt h' ∧
           exactly_sent h h' [(data (client message), text)]) →
    rejected_with message h text) as Hrej.
  { intros text Hex. destruct Hok as (Hlen & Hu & Hb).
    unfold rejected_with, parseRelayString.
    fold (relay_fields message). rewrite Hlen, Hu, Hb. simpl. exact Hex. }
  destruct (Z.eqb_spec (llen (relay_dests message)) 0) as [|_]; [lia|].
  unfold maxReceiversPerMessage, maxBodySize in *.
  split; [|split].
  - intros Hmany. apply Hrej.
    destruct (Z.gtb_spec (llen (relay_dests message)) 255); [|lia].
    by apply send_rejects.
  - intros Hfew Hbig. apply Hrej.
    destruct (Z.gtb_spec (llen (relay_dests message)) 255); [lia|].
    destruct (Z.gtb_spec (len (relay_body message)) 1024000); [|lia].
    by apply send_rejects.
  - intros Hfew Hfit. by apply parseRelayString_accepted.
Qed.

(** C5, witness, at the boundaries: 256 tokens; a body of 1,024,001
    bytes; 255 tokens with a body of exactly 1,024,000 bytes. *)
Lemma relay_limits_witness :
  (llen (relay_dests (relay_to_many alice 256 "x")) = 256 ∧
   rejected_with (relay_to_many alice 256 "x") two_clients
     "max receivers per message exceeded") ∧
  (let message := relay_to_many alice 1 (copies (Z.to_nat 1024001) "x") in
   len (relay_body message) = 1024001 ∧
   rejected_with message two_clients "message body can't exceed 1024kb") ∧
  (let message := relay_to_many alice 255 (copies (Z.to_nat 1024000) "x") in
   llen (relay_dests message) = 255 ∧ len (relay_body message) = 1024000 ∧
   parseRelayString message two_clients =
   parseRelayString_loop message
     (port_ptr (getPortFromAddress (RemoteAddr (ws (client message)))))
     (relay_body message) (relay_dests message) two_clients).
Proof.
  split; [|split].
  - split; [vm_compute; reflexivity|].
    apply (relay_limits (relay_to_many alice 256 "x") two_clients);
      [reflexivity|vm_compute; repeat split|vm_compute; reflexivity].
  - split; [vm_compute; reflexivity|].
    apply (relay_limits (relay_to_many alice 1 (copies (Z.to_nat 1024001) "x")) two_clients);
      [reflexivity|vm_compute; repeat split|vm_compute; discriminate|vm_compute; reflexivity].
  - split; [vm_compute; reflexivity|]. split; [vm_compute; reflexivity|].
    apply (relay_limits (relay_to_many alice 255 (copies (Z.to_nat 1024000) "x")) two_clients);
      [reflexivity|vm_compute; repeat split|vm_compute; discriminate|vm_compute; discriminate].
Defined.

(** ** C6: delivery *)

(** C6.  When the syntax and limit checks pass, the sender's identity is
    [senderID], and no queue that a send goes to is closed,
    [parseRelayString] returns having sent exactly [relay_sends]: one send
    per destination token, in the order of the tokens; for a token whose
    identity is not in the registry, ["userid not found: " + token] to the
    sender's queue, and the loop goes on; for a token whose identity is
    registered, [senderID + "-> " + body] to the queue of the client
    registered under it, and nothing to the sender (unless the sender is
    that client).  Nothing is undone. *)
Theorem relay_delivery (message : HubMessage) (senderID : Z) (h : Hub) :
  relay_syntax_ok message → relay_within_limits message →
  getPortFromAddress (RemoteAddr (ws (client message))) = inl senderID →
  (∀ s, s ∈ relay_sends h (client message) senderID (relay_body message)
              (relay_dests message) →
        closed (chan_state h (fst s)) = false) →
  ∃ h', parseRelayString message h = Ok tt h' ∧
        exactly_sent h h'
          (relay_sends h (client message) senderID (relay_body message)
             (relay_dests message)).
Proof.
  intros Hok Hlim Hid Hopen.
  rewrite parseRelayString_accepted by done. rewrite Hid. simpl.
  by apply parseRelayString_loop_sends.
Qed.

(** C6, witness: [alice] relays to 6000 ([bob]), to 77 (nobody) and to a
    token that is no number.  [bob] gets the body, [alice] the two
    notices and nothing about [bob]. *)
Lemma relay_delivery_witness :
  relay_sends two_clients alice 5000 "hello" ["6000"; "77"; "x"] =
    [(data bob, "5000-> hello"); (data alice, "userid not found: 77");
     (data alice, "userid not found: x")] ∧
  ∃ h', parseRelayString (says alice "relay|users=6000;77;x,body=hello") two_clients =
          Ok tt h' ∧
        exactly_sent two_clients h'
          (relay_sends two_clients alice 5000
             (relay_body (says alice "relay|users=6000;77;x,body=hello"))
             (relay_dests (says alice "relay|users=6000;77;x,body=hello"))).
Proof.
  split; [reflexivity|].
  apply (relay_delivery (says alice "relay|users=6000;77;x,body=hello") 5000 two_clients).
  - vm_compute. repeat split.
  - vm_compute. split; discriminate.
  - reflexivity.
  - intros s Hs. vm_compute in Hs.
    repeat (apply elem_of_cons in Hs as [->|Hs]; [reflexivity|]).
    by apply elem_of_nil in Hs.
Defined.

(** ** C7: the replies to [id], [list] and unknown commands *)

Section Queries.

Variable range_order : gmap Z Client → list (Z * Client).
Hypothesis range_order_perm : ∀ m, range_order m ≡ₚ map_to_list m.

(** C7.  Let the serializer have handled [events], among them the Connect
    of [sender], and be waiting for the next event in state [h], with the
    queue of [sender] open.  Then [sender] has an identity [id], registered
    in [h], and handling a message of [sender]
    - whose body is [id] sends to the sender's queue [Sprint id], the
      base-10 numeral of [id];
    - whose body is [list] sends to the sender's queue the listing of some
      enumeration [ids] of the registered identities other than [id]: [id]
      is not in it, and it has as many entries as there are registered
      clients, less one;
    - whose body is neither [id] nor [list] and does not start with
      [relay] sends to the sender's queue [command not recognized];
    and in each case the serializer goes on. *)
Theorem query_responses (events : list Event) (h : Hub) (sender : Client) :
  handle range_order events InitHub = Ok Continue h →
  In (Connect sender) events →
  closed (chan_state h (data sender)) = false →
  ∃ id, getPortFromAddress (RemoteAddr (ws sender)) = inl id ∧
    is_Some (clients h !! id) ∧
    (handle_select range_order (Message {| contents := "id"; client := sender |}) h =
       Ok Continue (enqueue (data sender) (Sprint id) h) ∧
     base10 (Sprint id) = true ∧ base10_val (Sprint id) = id) ∧
    (∃ ids,
       handle_select range_order (Message {| contents := "list"; client := sender |}) h =
         Ok Continue (enqueue (data sender) (listing ids) h) ∧
       ids ≡ₚ elements (dom (clients h) ∖ {[id]}) ∧
       (id ∉ ids) ∧
       llen ids = Z.of_nat (size (clients h)) - 1) ∧
    (∀ body, body ≠ "id" → body ≠ "list" → HasPrefix body "relay" = false →
       handle_select range_order (Message {| contents := body; client := sender |}) h =
         Ok Continue (enqueue (data sender) "command not recognized" h)).
Proof.
  intros Hrun Hconn Hopen.
  destruct (handle_registry range_order _ _ _ _ Hrun keyed_by_identity_init)
    as (_ & Hkeyed & _ & Hreg).
  destruct (Hreg sender Hconn) as (id & Hid & Hin).
  exists id. split; [done|]. split; [done|]. split; [|split].
  - split; [|apply Sprint_base10].
    simpl. M_step. unfold handleMessage. simpl.
    rewrite Hid. simpl. by rewrite send_open.
  - destruct (handleMessage_list range_order range_order_perm sender id h Hkeyed Hid Hopen)
      as (ids & Hlist & Hperm).
    exists ids. split; [|split; [done|split]].
    + simpl. M_step. by rewrite Hlist.
    + rewrite Hperm, elem_of_elements, elem_of_difference.
      intros [_ Hn]. apply Hn. by apply elem_of_singleton.
    + unfold llen. rewrite Hperm.
      change (length (elements (dom (clients h) ∖ {[id]})))
        with (size (dom (clients h) ∖ {[id]})).
      assert ({[id]} ⊆ dom (clients h)) as Hsub.
      { apply singleton_subseteq_l. by apply elem_of_dom. }
      rewrite size_difference by done.
      rewrite size_singleton, size_dom.
      assert (size (clients h) ≠ 0%nat) as Hne.
      { destruct Hin as [c Hc]. intros Hz. apply map_size_empty_iff in Hz.
        rewrite Hz in Hc. by rewrite lookup_empty in Hc. }
      lia.
  - intros body Hnid Hnlist Hnrelay.
    unfold handle_select, handleMessage. M_step.
    cbn [contents client]. rewrite Hid. apply String.eqb_neq in Hnid, Hnlist.
    rewrite Hnid, Hnlist, Hnrelay. by rewrite send_open.
Qed.

End Queries.

(** C7, witness: the queries of [alice], once [alice] and [bob] have
    connected, with the registry enumerated in the order of
    [map_to_list]. *)
Lemma query_responses_witness :
  ∃ id, getPortFromAddress (RemoteAddr (ws alice)) = inl id ∧
    is_Some (clients two_clients !! id) ∧
    (handle_select map_to_list (Message {| contents := "id"; client := alice |}) two_clients =
       Ok Continue (enqueue (data alice) (Sprint id) two_clients) ∧
     base10 (Sprint id) = true ∧ base10_val (Sprint id) = id) ∧
    (∃ ids,
       handle_select map_to_list (Message {| contents := "list"; client := alice |}) two_clients =
         Ok Continue (enqueue (data alice) (listing ids) two_clients) ∧
       ids ≡ₚ elements (dom (clients two_clients) ∖ {[id]}) ∧
       (id ∉ ids) ∧
       llen ids = Z.of_nat (size (clients two_clients)) - 1) ∧
    (∀ body, body ≠ "id" → body ≠ "list" → HasPrefix body "relay" = false →
       handle_select map_to_list (Message {| contents := body; client := alice |}) two_clients =
         Ok Continue (enqueue (data alice) "command not recognized" two_clients)).
Proof.
  apply (query_responses map_to_list) with (events := [Connect alice; Connect bob]).
  - intros m. reflexivity.
  - reflexivity.
  - left. reflexivity.
  - reflexivity.
Defined.

(** ** C8: the writer task *)

(** C8.  Given the successive results of its receive on the client's
    queue, [write] writes one text frame per payload received before the
    queue is reported closed, each the payload with [server: ] in front,
    and nothing else; it returns exactly when the queue is reported closed;
    so for a queue on which [queue c] was sent, it writes the frames of
    [queue c] and has returned if and only if the queue was closed. *)
Theorem writer_contract :
  (∀ rx, fst (write rx) = framed (dequeued rx)) ∧
  (∀ rx, snd (write rx) = Returned ↔ Closed ∈ rx) ∧
  (∀ c : Chan, write (receives c) =
               (framed (queue c), if closed c then Returned else Receiving)).
Proof.
  split; [|split].
  - induction rx as [|[p|] rx IH]; simpl; [done| |done].
    destruct (write rx) as [frames st]. simpl in *. by rewrite IH.
  - induction rx as [|[p|] rx IH]; simpl.
    + split; [done|]. intros H. by apply elem_of_nil in H.
    + destruct (write rx) as [frames st]. simpl in *. rewrite IH.
      rewrite elem_of_cons. split; [by right|]. by intros [|].
    + split; [|done]. intros _. left.
  - intros [q b]. unfold receives, framed. simpl.
    induction q as [|p q IH]; simpl.
    + by destruct b.
    + by rewrite IH.
Qed.

(** ** C9: the empty destination list *)

(** C9.  A split has at least one element, for every string and
    separator, so the test [len(destList) == 0] never holds; whenever
    [parseRelayString] returns (for a sender whose identity resolves), none
    of the payloads it has sent is [unexpected message format]; and a relay
    that passes the syntax checks with an empty users field has the single
    destination token [""], for which, when its lookup misses the registry
    (the empty token converts to identity 0), the sender is sent
    ["userid not found: "] and nothing else is sent. *)
Theorem empty_destination_branch_unreachable :
  (∀ (s : string) (sep : ascii), 1 <= llen (Split s sep)) ∧
  (∀ (message : HubMessage) (senderID : Z) (h h' : Hub),
     getPortFromAddress (RemoteAddr (ws (client message))) = inl senderID →
     parseRelayString message h = Ok tt h' →
     ∃ sends, exactly_sent h h' sends ∧
              ∀ s, s ∈ sends → snd s ≠ "unexpected message format") ∧
  (∀ (message : HubMessage) (h : Hub),
     relay_syntax_ok message → relay_users message = "" →
     len (relay_body message) <= maxBodySize →
     closed (chan_state h (data (client message))) = false →
     relay_dests message = [""] ∧
     (clients h !! fst (Atoi "") = None →
      ∃ h', parseRelayString message h = Ok tt h' ∧
            exactly_sent h h' [(data (client message), "userid not found: ")])).
Proof.
  split; [apply llen_Split_pos|]. split.
  - apply parseRelayString_returns.
  - intros message h Hok Hempty Hsize Hopen.
    assert (relay_dests message = [""]) as Hdests
      by (unfold relay_dests; by rewrite Hempty).
    split; [done|]. intros Hmiss.
    rewrite parseRelayString_accepted; [|done|].
    + rewrite Hdests. change (fst (Atoi "")) with 0 in Hmiss.
      simpl. M_step. unfold get_client.
      rewrite Hmiss. simpl. rewrite send_open by done.
      eexists. split; [reflexivity|]. apply exactly_sent_enqueue.
    + split; [|done]. rewrite Hdests. unfold maxReceiversPerMessage, llen. simpl. lia.
Qed.

(** C9, witness: [alice] sends a relay with an empty users field while
    nobody is registered under 0. *)
Lemma empty_destination_branch_unreachable_witness :
  1 <= llen (Split "" ";") ∧
  (∃ sends,
     exactly_sent two_clients (enqueue (data alice) "userid not found: " two_clients) sends ∧
     ∀ s, s ∈ sends → snd s ≠ "unexpected message format") ∧
  relay_dests (says alice "relay|users=,body=x") = [""] ∧
  ∃ h', parseRelayString (says alice "relay|users=,body=x") two_clients = Ok tt h' ∧
        exactly_sent two_clients h' [(data alice, "userid not found: ")].
Proof.
  pose proof empty_destination_branch_unreachable as (Hsplit & Hnever & Hempty).
  split; [apply Hsplit|]. split.
  - apply (Hnever (says alice "relay|users=,body=x") 5000); reflexivity.
  - destruct (Hempty (says alice "relay|users=,body=x") two_clients) as [Hdests Hmiss].
    + vm_compute. repeat split.
    + reflexivity.
    + vm_compute. discriminate.
    + reflexivity.
    + split; [exact Hdests|]. apply Hmiss. reflexivity.
Defined.

(** ** C10: a comma in the body *)

(** C10.  A message [relay|users=<users>,body=<text>] whose text holds a
    comma splits into more than two fields, whatever its users and its
    text are otherwise: with the sender's queue open it is rejected with
    the "users and body fields" message, sent to the sender, and nothing is
    sent to anyone else. *)
Theorem relay_body_with_comma_rejected (users text : string) (sender : Client) (h : Hub) :
  (1 <= count "," text)%nat →
  closed (chan_state h (data sender)) = false →
  2 < llen (relay_fields
         {| contents := "relay|users=" +:+ users +:+ ",body=" +:+ text; client := sender |}) ∧
  rejected_with
    {| contents := "relay|users=" +:+ users +:+ ",body=" +:+ text; client := sender |} h
    "relay message should contain users and body fields".
Proof.
  intros Hcomma Hopen.
  assert (2 < llen (relay_fields
    {| contents := "relay|users=" +:+ users +:+ ",body=" +:+ text; client := sender |})) as Hlen.
  { unfold relay_fields, llen. simpl contents.
    change ("relay|users=" +:+ users +:+ ",body=" +:+ text)
      with ("relay|" +:+ ("users=" +:+ users +:+ ",body=" +:+ text)).
    rewrite TrimPrefix_app, Split_length, !count_app.
    simpl count. lia. }
  split; [done|]. apply relay_fields_rejected; [done|lia].
Qed.

(** C10, witness: the body [a,b]. *)
Lemma relay_body_with_comma_rejected_witness :
  2 < llen (relay_fields (says alice "relay|users=6000,body=a,b")) ∧
  rejected_with (says alice "relay|users=6000,body=a,b") two_clients
    "relay message should contain users and body fields".
Proof.
  apply (relay_body_with_comma_rejected "6000" "a,b" alice two_clients).
  - vm_compute. lia.
  - reflexivity.
Defined.

(** * Further properties of the code *)

Import Tasks Runs.

(** ** Addresses *)

Section Addresses.

Lemma Sprint_no_colon (n : Z) : count ":" (Sprint n) = O.
Proof. apply base10_no_colon, Sprint_base10. Qed.

Lemma count_one_split (a : string) (sep : ascii) :
  count sep a = 1%nat ↔ length (Split a sep) = 2%nat.
Proof. rewrite Split_length. lia. Qed.

End Addresses.

(** X1.  Round trip of an address: for a host that holds no colon and a
    port that is an [int], [getPortFromAddress] applied to the host, a
    colon and the port as [Sprint] prints it returns that port. *)
Theorem getPortFromAddress_of_printed_port (host : string) (port : Z) :
  count ":" host = O → is_int port →
  getPortFromAddress (host +:+ String ":" (Sprint port)) = inl port.
Proof.
  intros Hhost Hint. unfold getPortFromAddress.
  rewrite Split_two_fields by (done || apply Sprint_no_colon).
  simpl. by rewrite Atoi_Sprint.
Qed.

(** X1, witness: a host and a port. *)
Lemma getPortFromAddress_of_printed_port_witness :
  getPortFromAddress ("192.168.1.20" +:+ String ":" (Sprint 51234)) = inl 51234.
Proof.
  apply getPortFromAddress_of_printed_port; [reflexivity|].
  unfold is_int. lia.
Defined.

(** X2.  The two errors of [getPortFromAddress].  An address that does
    not hold exactly one colon (none, as the empty address, or several)
    gives [error reading the address: ] followed by the whole address.  An
    address [host:p] with exactly one colon whose [p] is not a base-10
    integer in the range of [int] gives [error converting port: ] followed
    by [p]. *)
Theorem getPortFromAddress_errors (a : string) :
  (count ":" a ≠ 1%nat →
   getPortFromAddress a = inr (Errorf ("error reading the address: " +:+ a))) ∧
  (∀ host p, a = host +:+ String ":" p → count ":" host = O → count ":" p = O →
     ¬ (base10 p = true ∧ is_int (base10_val p)) →
     getPortFromAddress a = inr (Errorf ("error converting port: " +:+ p))).
Proof.
  split.
  - intros Hcount. unfold getPortFromAddress.
    destruct (Z.eqb_spec (llen (Split a ":")) 2) as [Hlen|]; [|done].
    exfalso. apply Hcount. apply count_one_split. unfold llen in Hlen. lia.
  - intros host p -> Hhost Hp Hbad. unfold getPortFromAddress.
    rewrite Split_two_fields by done. simpl.
    destruct (Atoi p) as [v [e|]] eqn:E; [done|].
    exfalso. apply Hbad. apply Atoi_ok in E as (? & ? & _). done.
Qed.

(** X2, witness: the empty address, an address without a colon, a port
    that is a word, and an empty port. *)
Lemma getPortFromAddress_errors_witness :
  getPortFromAddress "" = inr (Errorf "error reading the address: ") ∧
  getPortFromAddress "localhost" = inr (Errorf "error reading the address: localhost") ∧
  getPortFromAddress "host:http" = inr (Errorf "error converting port: http") ∧
  getPortFromAddress "host:" = inr (Errorf "error converting port: ").
Proof.
  split; [|split; [|split]].
  - apply (getPortFromAddress_errors ""). vm_compute. lia.
  - apply (getPortFromAddress_errors "localhost"). vm_compute. lia.
  - apply (proj2 (getPortFromAddress_errors "host:http") "host" "http");
      [reflexivity..|]. vm_compute. intros [? _]. discriminate.
  - apply (proj2 (getPortFromAddress_errors "host:") "host" "");
      [reflexivity..|]. vm_compute. intros [? _]. discriminate.
Defined.

(** ** Destination tokens *)

Section Tokens.

Lemma base10_short_int (u : string) :
  base10 u = true → len u < 19 → is_int (base10_val u).
Proof.
  destruct u as [|c t]; [done|]. unfold base10, base10_val, is_int, len.
  simpl String.length. intros Hb Hlen.
  change (2 ^ 63) with 9223372036854775808.
  assert (∀ s, all_digits s = true → Z.of_nat (String.length s) < 19 →
               0 <= digits_val 0 s < 1000000000000000000) as Hsmall.
  { intros s Hd Hs. pose proof (digits_val_mono s 0 Hd ltac:(lia)).
    pose proof (digits_val_bound s 0 Hd ltac:(lia)) as Hbd.
    assert (10 ^ len s <= 10 ^ 18) by (apply Z.pow_le_mono_r; unfold len; lia).
    change (10 ^ 18) with 1000000000000000000 in *. lia. }
  destruct (Ascii.eqb c "-") eqn:Em; simpl in Hb.
  - apply andb_prop in Hb as [_ Hd]. specialize (Hsmall t Hd). lia.
  - destruct (Ascii.eqb c "+") eqn:Ep; simpl in Hb.
    + apply andb_prop in Hb as [_ Hd]. specialize (Hsmall t Hd). lia.
    + specialize (Hsmall (String c t) Hb). simpl String.length in Hsmall. lia.
Qed.

Lemma Atoi_long (u : string) : ¬ (0 < len u < 19) → Atoi u = ParseInt u.
Proof.
  intros Hlen. unfold Atoi.
  destruct (Z.ltb_spec 0 (len u)), (Z.ltb_spec (len u) 19); simpl; done || lia.
Qed.

(** [ParseInt] on a numeral whose value is no [int]: the nearest bound and
    a range error. *)
Lemma ParseInt_magnitude_range (neg : bool) (t : string) :
  t ≠ "" → all_digits t = true →
  ¬ is_int (if neg then - digits_val 0 t else digits_val 0 t) →
  ParseInt_magnitude neg t =
    (clamp_int (if neg then - digits_val 0 t else digits_val 0 t), Some ErrRange).
Proof.
  intros Hne Hd Hout. unfold ParseInt_magnitude, intSize, clamp_int, is_int in *.
  change (2 ^ (64 - 1)) with 9223372036854775808.
  change (2 ^ 63) with 9223372036854775808 in *.
  pose proof (digits_val_mono t 0 Hd ltac:(lia)) as Hpos.
  destruct (ParseUint_cases t) as [(_ & _ & E)|[[?|?] _]]; [|done|congruence].
  rewrite E. unfold maxUint64. change (2 ^ 64 - 1) with 18446744073709551615.
  set (dv := digits_val 0 t) in *.
  destruct (Z.leb_spec dv 18446744073709551615); destruct neg; simpl.
  - destruct (Z.gtb_spec dv 9223372036854775808); [|lia]. f_equal. lia.
  - destruct (Z.geb_spec dv 9223372036854775808); [|lia]. f_equal. lia.
  - f_equal. lia.
  - f_equal. lia.
Qed.

Lemma Atoi_syntax_error_zero (u : string) :
  snd (Atoi u) = Some ErrSyntax → fst (Atoi u) = 0.
Proof.
  assert (∀ neg t, snd (ParseInt_magnitude neg t) = Some ErrSyntax →
                   fst (ParseInt_magnitude neg t) = 0) as Hmag.
  { intros neg t. unfold ParseInt_magnitude.
    destruct (ParseUint t) as [un [[]|]]; [done|..];
      repeat match goal with |- context [if ?b then _ else _] => destruct b end; done. }
  assert (snd (ParseInt u) = Some ErrSyntax → fst (ParseInt u) = 0) as Hint.
  { unfold ParseInt. destruct u as [|c t]; [done|].
    destruct (Ascii.eqb c "+"); [apply Hmag|]. destruct (Ascii.eqb c "-"); apply Hmag. }
  unfold Atoi. destruct ((0 <? len u) && (len u <? 19)); [|done].
  destruct u as [|c t]; [done|].
  match goal with |- context [if ?b then _ else _] => destruct b end; [done|].
  destruct (Atoi_fast_loop _ 0); [|done]. simpl. done.
Qed.

Lemma Atoi_short_not_numeral (u : string) :
  base10 u = false → len u < 19 → Atoi u = (0, Some ErrSyntax).
Proof.
  intros Hb Hlen.
  destruct (Atoi u) as [v [e|]] eqn:E.
  - assert (e = ErrSyntax) as ->.
    { revert E. unfold Atoi.
      destruct (Z.ltb_spec 0 (len u)) as [Hpos|Hzero]; simpl.
      - destruct (Z.ltb_spec (len u) 19); [|lia].
        destruct u as [|c t]; [by intros [= <- <-]|].
        match goal with |- context [if ?b then _ else _] => destruct b end;
          [by intros [= <- <-]|].
        destruct (Atoi_fast_loop _ 0); [done|]. by intros [= <- <-].
      - destruct u as [|c t]; [by intros [= <- <-]|].
        unfold len in Hzero. simpl String.length in Hzero. lia. }
    pose proof (Atoi_syntax_error_zero u) as Hz. rewrite E in Hz.
    simpl in Hz. by rewrite Hz.
  - apply Atoi_ok in E as (Hb' & _). congruence.
Qed.

End Tokens.

(** X3.  The identity that [parseRelayString] looks up for a destination
    token is [strconv.Atoi] of the token with the error dropped.  For a
    base-10 numeral it is the value brought to the nearest [int], and
    [Atoi] reports no error exactly when the value is an [int]; for a token
    of at most 18 bytes that is no numeral it is 0, with a syntax error;
    and it is 0 whenever [Atoi] reports a syntax error. *)
Theorem token_identity (u : string) :
  (base10 u = true →
   fst (Atoi u) = clamp_int (base10_val u) ∧
   (snd (Atoi u) = None ↔ is_int (base10_val u))) ∧
  (base10 u = false → len u < 19 → Atoi u = (0, Some ErrSyntax)) ∧
  (snd (Atoi u) = Some ErrSyntax → fst (Atoi u) = 0).
Proof.
  split; [|split; [apply Atoi_short_not_numeral|apply Atoi_syntax_error_zero]].
  intros Hb.
  destruct (decide (- 2 ^ 63 <= base10_val u < 2 ^ 63)) as [Hint|Hout].
  - assert (Atoi u = (base10_val u, None)) as -> by (by apply Atoi_ok).
    simpl. split; [|done]. unfold clamp_int. lia.
  - assert (Atoi u = (clamp_int (base10_val u), Some ErrRange)) as ->.
    { rewrite Atoi_long.
      2:{ intros [_ Hlen]. by apply Hout, base10_short_int. }
      destruct u as [|c t]; [done|]. unfold base10, base10_val, ParseInt in *.
      destruct (Ascii.eqb_spec c "+") as [->|Hp].
      - simpl in Hb. apply andb_prop in Hb as [Hne Hd].
        apply (ParseInt_magnitude_range false); [|done|done].
        intros ->. done.
      - destruct (Ascii.eqb_spec c "-") as [->|Hm].
        + simpl in Hb. apply andb_prop in Hb as [Hne Hd].
          apply (ParseInt_magnitude_range true); [|done|done].
          intros ->. done.
        + simpl in Hb. by apply (ParseInt_magnitude_range false). }
    simpl. split; [done|]. split; [done|]. intros Hint. by destruct Hout.
Qed.

(** X3, witness: a port, a numeral below the least [int], a numeral with a
    letter after it, and the empty token. *)
Lemma token_identity_witness :
  fst (Atoi "6000") = clamp_int (base10_val "6000") ∧
  fst (Atoi "-99999999999999999999") = clamp_int (base10_val "-99999999999999999999") ∧
  Atoi "6000x" = (0, Some ErrSyntax) ∧
  fst (Atoi "") = 0.
Proof.
  split; [|split; [|split]].
  - apply (token_identity "6000"). reflexivity.
  - apply (token_identity "-99999999999999999999"). reflexivity.
  - apply (token_identity "6000x"); [reflexivity|]. vm_compute. reflexivity.
  - apply (token_identity ""). reflexivity.
Defined.

(** ** Relays: closed queues, odd tokens, printed identities *)

Section RelayOutcomes.

(** The loop panics as soon as it meets a closed queue. *)
Lemma parseRelayString_loop_panics (message : HubMessage) (senderID : Z)
    (body : string) (destList : list string) (h : Hub) :
  (∃ s, s ∈ relay_sends h (client message) senderID body destList ∧
        closed (chan_state h (fst s)) = true) →
  parseRelayString_loop message (Some senderID) body destList h =
  Panic "send on closed channel".
Proof.
  revert h. induction destList as [|u destList IH]; intros h (s & Hin & Hclosed).
  - by apply elem_of_nil in Hin.
  - simpl. M_step. unfold get_client.
    set (s0 := relay_send h (client message) senderID body u).
    assert (send (fst s0) (snd s0) h = Panic "send on closed channel" ∨
            send (fst s0) (snd s0) h = Ok tt (enqueue (fst s0) (snd s0) h) ∧
            parseRelayString_loop message (Some senderID) body destList
              (enqueue (fst s0) (snd s0) h) = Panic "send on closed channel")
      as Hcases.
    { destruct (closed (chan_state h (fst s0))) eqn:E0.
      - left. by apply send_closed.
      - right. split; [by apply send_open|].
        apply IH. exists s. simpl in Hin. apply elem_of_cons in Hin as [->|Hin].
        + fold s0 in Hclosed. congruence.
        + split.
          * by rewrite (relay_sends_registry h).
          * rewrite (exactly_sent_closed h _ [(fst s0, snd s0)]);
              [done|apply exactly_sent_enqueue]. }
    subst s0. unfold relay_send in *.
    destruct (clients h !! fst (Atoi u)) as [destClient|]; simpl in *.
    + destruct Hcases as [->|[-> ->]]; done.
    + destruct Hcases as [->|[-> ->]]; done.
Qed.

Lemma all_digits_count (sep : ascii) (s : string) :
  is_digit sep = false → all_digits s = true → count sep s = O.
Proof.
  intros Hsep. induction s as [|c s IH]; simpl; [done|].
  intros H. apply andb_prop in H as [Hc Hs]. rewrite (IH Hs).
  destruct (Ascii.eqb_spec c sep) as [->|]; [congruence|done].
Qed.

Lemma count_cons (sep c : ascii) (s : string) :
  count sep (String c s) = ((if Ascii.eqb c sep then 1 else 0) + count sep s)%nat.
Proof. done. Qed.

Lemma base10_count (sep : ascii) (s : string) :
  is_digit sep = false → sep ≠ "-"%char → sep ≠ "+"%char →
  base10 s = true → count sep s = O.
Proof.
  intros Hsep Hm Hp. destruct s as [|c s]; [done|]. unfold base10.
  destruct (Ascii.eqb_spec c "-") as [->|Hcm]; simpl orb; cbv iota.
  - intros H. apply andb_prop in H as [_ Hs].
    rewrite count_cons, (all_digits_count sep s) by done.
    destruct (Ascii.eqb_spec "-"%char sep); [congruence|done].
  - destruct (Ascii.eqb_spec c "+") as [->|Hcp]; cbv iota.
    + intros H. apply andb_prop in H as [_ Hs].
      rewrite count_cons, (all_digits_count sep s) by done.
      destruct (Ascii.eqb_spec "+"%char sep); [congruence|done].
    + by apply all_digits_count.
Qed.

(** The parts of a relay message written with [users=] and [body=]. *)
Lemma relay_parts (sender : Client) (users body : string) :
  count "," users = O → count "," body = O →
  let message := says sender ("relay|users=" +:+ users +:+ ",body=" +:+ body) in
  relay_syntax_ok message ∧ relay_users message = users ∧ relay_body message = body.
Proof.
  intros Hu Hb message.
  assert (relay_fields message = ["users=" +:+ users; "body=" +:+ body]) as Hfields.
  { unfold relay_fields, message, says. simpl contents.
    change ("relay|users=" +:+ users +:+ ",body=" +:+ body)
      with ("relay|" +:+ (("users=" +:+ users) +:+ String "," ("body=" +:+ body))).
    rewrite TrimPrefix_app. apply Split_two_fields.
    - rewrite count_app. by rewrite Hu.
    - rewrite count_app. by rewrite Hb. }
  unfold relay_syntax_ok, relay_users, relay_body. rewrite Hfields. simpl nth.
  rewrite !HasPrefix_app, !TrimPrefix_app. done.
Qed.

(** With every registered client's queue and the sender's queue open, a
    relay message is handled to its end and something is sent. *)
Lemma parseRelayString_all_open (message : HubMessage) (senderID : Z) (h : Hub) :
  (∀ k d, clients h !! k = Some d → closed (chan_state h (data d)) = false) →
  closed (chan_state h (data (client message))) = false →
  getPortFromAddress (RemoteAddr (ws (client message))) = inl senderID →
  ∃ h' sends, parseRelayString message h = Ok tt h' ∧
              exactly_sent h h' sends ∧ sends ≠ [].
Proof.
  intros Hreg Hopen Hid. unfold parseRelayString. rewrite Hid. simpl port_ptr.
  fold (relay_fields message).
  assert (∀ text, ∃ h' sends, send (data (client message)) text h = Ok tt h' ∧
                              exactly_sent h h' sends ∧ sends ≠ []) as Hone.
  { intros text. destruct (send_rejects _ text h Hopen) as (h' & Hrun & Hsent).
    by exists h', [(data (client message), text)]. }
  destruct (negb (llen (relay_fields message) =? 2)); [apply Hone|].
  destruct (negb (HasPrefix (nth 0 (relay_fields message) "") "users=")); [apply Hone|].
  destruct (negb (HasPrefix (nth 1 (relay_fields message) "") "body=")); [apply Hone|].
  fold (relay_users message). fold (relay_body message). fold (relay_dests message).
  destruct (llen (relay_dests message) =? 0); [apply Hone|].
  destruct (llen (relay_dests message) >? maxReceiversPerMessage); [apply Hone|].
  destruct (len (relay_body message) >? maxBodySize); [apply Hone|].
  destruct (parseRelayString_loop_sends message senderID (relay_body message)
              (relay_dests message) h) as (h' & Hrun & Hsent).
  { intros s Hs. unfold relay_sends in Hs.
    apply list_elem_of_fmap in Hs as (u & -> & _). unfold relay_send.
    destruct (clients h !! fst (Atoi u)) as [d|] eqn:E; simpl; [by apply (Hreg _ _ E)|done]. }
  eexists _, _. split; [exact Hrun|]. split; [exact Hsent|].
  unfold relay_sends, relay_dests.
  pose proof (Split_nonempty (relay_users message) ";").
  by destruct (Split (relay_users message) ";").
Qed.

Lemma Split_head (c : ascii) (s : string) (sep : ascii) :
  c ≠ sep → ∃ x xs, Split (String c s) sep = String c x :: xs.
Proof.
  intros Hne. simpl. apply Ascii.eqb_neq in Hne. rewrite Hne.
  pose proof (Split_nonempty s sep). destruct (Split s sep) as [|x xs]; [done|].
  by exists x, xs.
Qed.

End RelayOutcomes.

(** X4.  A relay that passes the syntax and limit checks, from a sender
    whose identity resolves, panics with [send on closed channel] as soon
    as one of the sends it has to make (to a registered destination, or
    the not-found notice to the sender) goes to a closed queue. *)
Theorem relay_to_closed_queue_panics (message : HubMessage) (senderID : Z) (h : Hub) :
  relay_syntax_ok message → relay_within_limits message →
  getPortFromAddress (RemoteAddr (ws (client message))) = inl senderID →
  (∃ s, s ∈ relay_sends h (client message) senderID (relay_body message)
              (relay_dests message) ∧
        closed (chan_state h (fst s)) = true) →
  parseRelayString message h = Panic "send on closed channel".
Proof.
  intros Hok Hlim Hid Hclosed.
  rewrite parseRelayString_accepted by done. rewrite Hid. simpl.
  by apply parseRelayString_loop_panics.
Qed.

(** X4, witness: [bob] relays to 77, to [alice], who has disconnected, and
    to 6000. *)
Lemma relay_to_closed_queue_panics_witness :
  parseRelayString (says bob "relay|users=77;5000;6000,body=hi") alice_left =
  Panic "send on closed channel".
Proof.
  apply (relay_to_closed_queue_panics (says bob "relay|users=77;5000;6000,body=hi") 6000).
  - vm_compute. repeat split.
  - vm_compute. split; discriminate.
  - reflexivity.
  - exists (relay_send alice_left bob 6000 "hi" "5000"). split; [|reflexivity].
    apply list_elem_of_fmap. exists "5000". split; [reflexivity|].
    vm_compute. right. left.
Defined.

(** X5.  A destination token of at most 18 bytes that is no number is
    looked up as identity 0: when a client is registered under 0 and its
    queue is open, a relay to such a token delivers the body to that
    client, and the sender gets no not-found notice. *)
Theorem relay_to_malformed_token (sender dest : Client) (senderID : Z)
    (u body : string) (h : Hub) :
  base10 u = false → len u < 19 →
  count "," u = O → count ";" u = O → count "," body = O →
  len body <= maxBodySize →
  getPortFromAddress (RemoteAddr (ws sender)) = inl senderID →
  clients h !! 0 = Some dest →
  closed (chan_state h (data dest)) = false →
  ∃ h', parseRelayString (says sender ("relay|users=" +:+ u +:+ ",body=" +:+ body)) h =
          Ok tt h' ∧
        exactly_sent h h' [(data dest, (Sprint senderID +:+ "-> ") +:+ body)].
Proof.
  intros Hb Hlen Hu Hsemi Hbody Hsize Hid Hzero Hopen.
  destruct (relay_parts sender u body Hu Hbody) as (Hok & Husers & Hbod).
  set (message := says sender ("relay|users=" +:+ u +:+ ",body=" +:+ body)) in *.
  assert (relay_dests message = [u]) as Hdests
    by (unfold relay_dests; rewrite Husers; by apply Split_no_sep).
  rewrite parseRelayString_accepted; [|done|].
  - rewrite Hdests, Hbod. simpl client. rewrite Hid. simpl.
    M_step. unfold get_client. rewrite (Atoi_short_not_numeral u) by done.
    simpl. rewrite Hzero. simpl. rewrite send_open by done.
    eexists. split; [reflexivity|]. apply exactly_sent_enqueue.
  - split; [|by rewrite Hbod]. rewrite Hdests. unfold maxReceiversPerMessage, llen.
    simpl. lia.
Qed.

(** X5, witness: [alice] relays to the token [bob] while [zed] is
    registered under 0. *)
Lemma relay_to_malformed_token_witness :
  ∃ h', parseRelayString (says alice ("relay|users=" +:+ "bob" +:+ ",body=" +:+ "hi")) with_zed =
          Ok tt h' ∧
        exactly_sent with_zed h' [(data zed, (Sprint 5000 +:+ "-> ") +:+ "hi")].
Proof.
  apply (relay_to_malformed_token alice zed 5000 "bob" "hi" with_zed);
    try reflexivity.
  vm_compute. discriminate.
Defined.

(** X6.  The textual identity is a destination: a relay whose users field
    is [Sprint id], for a client registered under [id] whose address
    resolves to [id] and whose queue is open, delivers exactly the
    sender's identity, [-> ] and the body to that client's queue, and
    nothing else.  (The body holds no comma and is within the size
    limit.) *)
Theorem relay_to_printed_identity (sender dest : Client) (senderID id : Z)
    (body : string) (h : Hub) :
  count "," body = O → len body <= maxBodySize →
  getPortFromAddress (RemoteAddr (ws sender)) = inl senderID →
  getPortFromAddress (RemoteAddr (ws dest)) = inl id →
  clients h !! id = Some dest →
  closed (chan_state h (data dest)) = false →
  ∃ h', parseRelayString
          (says sender ("relay|users=" +:+ Sprint id +:+ ",body=" +:+ body)) h =
          Ok tt h' ∧
        exactly_sent h h' [(data dest, (Sprint senderID +:+ "-> ") +:+ body)].
Proof.
  intros Hbody Hsize Hsid Hid Hreg Hopen.
  pose proof (getPortFromAddress_int _ _ Hid) as Hint.
  destruct (Sprint_base10 id) as [Hb _].
  assert (count "," (Sprint id) = O) as Hcomma by (by apply base10_count).
  assert (count ";" (Sprint id) = O) as Hsemi by (by apply base10_count).
  destruct (relay_parts sender (Sprint id) body Hcomma Hbody) as (Hok & Husers & Hbod).
  set (message := says sender ("relay|users=" +:+ Sprint id +:+ ",body=" +:+ body)) in *.
  assert (relay_dests message = [Sprint id]) as Hdests
    by (unfold relay_dests; rewrite Husers; by apply Split_no_sep).
  rewrite parseRelayString_accepted; [|done|].
  - rewrite Hdests, Hbod. simpl client. rewrite Hsid. simpl.
    M_step. unfold get_client. rewrite (Atoi_Sprint id) by done.
    simpl. rewrite Hreg. simpl. rewrite send_open by done.
    eexists. split; [reflexivity|]. apply exactly_sent_enqueue.
  - split; [|by rewrite Hbod]. rewrite Hdests. unfold maxReceiversPerMessage, llen.
    simpl. lia.
Qed.

(** X6, witness: [alice] relays to the printed identity of [bob]. *)
Lemma relay_to_printed_identity_witness :
  ∃ h', parseRelayString
          (says alice ("relay|users=" +:+ Sprint 6000 +:+ ",body=" +:+ "hi")) two_clients =
          Ok tt h' ∧
        exactly_sent two_clients h' [(data bob, (Sprint 5000 +:+ "-> ") +:+ "hi")].
Proof.
  apply (relay_to_printed_identity alice bob 5000 6000 "hi" two_clients);
    try reflexivity.
  vm_compute. discriminate.
Defined.

(** X7.  A message that starts with [relay] but not with [relay|] is
    handled as a relay with nothing stripped, and is never delivered: it is
    rejected with the "users and body fields" message or with the "users
    field" message. *)
Theorem relay_without_bar_rejected (message : HubMessage) (h : Hub) :
  HasPrefix (contents message) "relay" = true →
  HasPrefix (contents message) "relay|" = false →
  closed (chan_state h (data (client message))) = false →
  rejected_with message h "relay message should contain users and body fields" ∨
  rejected_with message h "relay message should contain users field".
Proof.
  intros Hrelay Hbar Hopen.
  destruct (Z.eq_dec (llen (relay_fields message)) 2) as [Hlen|Hlen];
    [right|left; by apply relay_fields_rejected].
  assert (relay_fields message = Split (contents message) ",") as Hfields
    by (unfold relay_fields, TrimPrefix; by rewrite Hbar).
  assert (HasPrefix (nth 0 (relay_fields message) "") "users=" = false) as Hu.
  { rewrite Hfields. destruct (contents message) as [|c s]; [done|].
    simpl in Hrelay. apply andb_prop in Hrelay as [Hc _].
    apply Ascii.eqb_eq in Hc as ->.
    destruct (Split_head "r" s ",") as (x & xs & ->); [done|]. done. }
  unfold rejected_with, parseRelayString. fold (relay_fields message).
  rewrite Hlen, Hu. simpl. by apply send_rejects.
Qed.

(** X7, witness: a message that starts with [relayed]. *)
Lemma relay_without_bar_rejected_witness :
  rejected_with (says alice "relayed,users=6000,body=hi") two_clients
    "relay message should contain users and body fields" ∨
  rejected_with (says alice "relayed,users=6000,body=hi") two_clients
    "relay message should contain users field".
Proof.
  apply (relay_without_bar_rejected (says alice "relayed,users=6000,body=hi") two_clients);
    reflexivity.
Defined.

(** ** What handling a message sends *)

Section Replies.

Variable range_order : gmap Z Client → list (Z * Client).

Lemma relay_sends_addressed (h : Hub) (sender : Client) (senderID : Z)
    (body : string) (destList : list string) :
  addressed h sender (relay_sends h sender senderID body destList).
Proof.
  intros s Hs. unfold relay_sends in Hs.
  apply list_elem_of_fmap in Hs as (u & -> & _). unfold relay_send.
  destruct (clients h !! fst (Atoi u)) as [d|] eqn:E; simpl; [|by left].
  right. by exists (fst (Atoi u)), d.
Qed.

Lemma parseRelayString_replies (message : HubMessage) (senderID : Z) (h h' : Hub) :
  getPortFromAddress (RemoteAddr (ws (client message))) = inl senderID →
  parseRelayString message h = Ok tt h' →
  ∃ sends, exactly_sent h h' sends ∧ sends ≠ [] ∧ addressed h (client message) sends.
Proof.
  intros Hid. unfold parseRelayString. rewrite Hid. simpl port_ptr.
  fold (relay_fields message).
  assert (∀ text, send (data (client message)) text h = Ok tt h' →
            ∃ sends, exactly_sent h h' sends ∧ sends ≠ [] ∧
                     addressed h (client message) sends) as Hone.
  { intros text Hrun. exists [(data (client message), text)].
    split; [by apply send_returns|]. split; [done|].
    intros s Hs. apply list_elem_of_singleton in Hs as ->. by left. }
  destruct (negb (llen (relay_fields message) =? 2)); [apply Hone|].
  destruct (negb (HasPrefix (nth 0 (relay_fields message) "") "users=")); [apply Hone|].
  destruct (negb (HasPrefix (nth 1 (relay_fields message) "") "body=")); [apply Hone|].
  fold (relay_users message). fold (relay_body message). fold (relay_dests message).
  destruct (llen (relay_dests message) =? 0); [apply Hone|].
  destruct (llen (relay_dests message) >? maxReceiversPerMessage); [apply Hone|].
  destruct (len (relay_body message) >? maxBodySize); [apply Hone|].
  intros Hrun. apply parseRelayString_loop_returns in Hrun.
  eexists. split; [exact Hrun|]. split; [|apply relay_sends_addressed].
  unfold relay_sends, relay_dests.
  pose proof (Split_nonempty (relay_users message) ";").
  by destruct (Split (relay_users message) ";").
Qed.

Lemma handleMessage_replies (hubM : HubMessage) (h h' : Hub) :
  handleMessage range_order hubM h = Ok tt h' →
  ∃ sends, exactly_sent h h' sends ∧ sends ≠ [] ∧ addressed h (client hubM) sends ∧
           (HasPrefix (contents hubM) "relay" = false →
            ∃ text, sends = [(data (client hubM), text)]).
Proof.
  unfold handleMessage.
  destruct (getPortFromAddress (RemoteAddr (ws (client hubM)))) as [port|err] eqn:Hid; [|done].
  assert (∀ text, send (data (client hubM)) text h = Ok tt h' →
            ∃ sends, exactly_sent h h' sends ∧ sends ≠ [] ∧
                     addressed h (client hubM) sends ∧
                     (HasPrefix (contents hubM) "relay" = false →
                      ∃ text, sends = [(data (client hubM), text)])) as Hone.
  { intros text Hrun. exists [(data (client hubM), text)].
    split; [by apply send_returns|]. split; [done|]. split; [|by exists text].
    intros s Hs. apply list_elem_of_singleton in Hs as ->. by left. }
  destruct (String.eqb (contents hubM) "id"); [apply Hone|].
  destruct (String.eqb (contents hubM) "list").
  - M_step. unfold getAllUsersExcept.
    destruct (clientsToBytes _ h) as [listing h1| |] eqn:E; [|done..].
    apply clientsToBytes_loop_state in E as ->. apply Hone.
  - destruct (HasPrefix (contents hubM) "relay"); [|apply Hone].
    intros Hrun. destruct (parseRelayString_replies _ _ _ _ Hid Hrun) as (sends & ? & ? & ?).
    exists sends. done.
Qed.

(** One round of the loop: the registry changes as [register] says, and a
    queue is closed afterwards when it was before or the event disconnects
    it. *)
Lemma handle_select_effect (e : Event) (flow : Flow) (h h' : Hub) :
  handle_select range_order e h = Ok flow h' →
  clients h' = register (clients h) e ∧
  ∀ ch, closed (chan_state h' ch) = closed (chan_state h ch) || disconnects ch e.
Proof.
  destruct e as [c|c|m]; simpl.
  - destruct (getPortFromAddress (RemoteAddr (ws c))) as [port|err]; [|done].
    intros [= <- <-]. split; [done|]. intros ch. by rewrite orb_false_r.
  - M_step. unfold close. destruct (closed (chan_state h (data c))) eqn:Hc; [done|].
    intros [= <- <-]. split; [done|]. intros ch. unfold chan_state at 1. simpl.
    destruct (Nat.eqb_spec (data c) ch) as [<-|Hne].
    + rewrite lookup_insert_eq. simpl. by rewrite orb_true_r.
    + rewrite lookup_insert_ne by done. by rewrite orb_false_r.
  - M_step. destruct (handleMessage range_order m h) as [[] h1| |] eqn:E; [|done..].
    intros [= <- <-]. destruct (handleMessage_replies _ _ _ E) as (sends & [Hc Hq] & _).
    split; [done|]. intros ch. rewrite orb_false_r. apply Hq.
Qed.

Lemma handle_effect (events : list Event) (flow : Flow) (h0 h : Hub) :
  handle range_order events h0 = Ok flow h →
  clients h = registry_after (clients h0) events ∧
  ∀ ch, closed (chan_state h ch) =
        closed (chan_state h0 ch) || existsb (disconnects ch) events.
Proof.
  revert h0. induction events as [|e events IH]; intros h0.
  - intros [= <- <-]. split; [done|]. intros ch. by rewrite orb_false_r.
  - simpl. M_step.
    destruct (handle_select range_order e h0) as [flow1 h1| |] eqn:E; [|done..].
    destruct (handle_select_registry _ _ _ _ _ E) as (-> & _).
    destruct (handle_select_effect _ _ _ _ E) as [Hreg Hcl].
    intros Hrun. destruct (IH h1 Hrun) as [Hreg' Hcl'].
    split.
    + unfold registry_after in *. simpl. by rewrite <- Hreg.
    + intros ch. rewrite Hcl', Hcl. by rewrite orb_assoc.
Qed.

(** [handle] on a list of events that continues another. *)
Lemma handle_app (events1 events2 : list Event) (h0 h1 : Hub) :
  handle range_order events1 h0 = Ok Continue h1 →
  handle range_order (events1 ++ events2) h0 = handle range_order events2 h1.
Proof.
  revert h0. induction events1 as [|e events1 IH]; intros h0.
  - by intros [= <-].
  - simpl. M_step.
    destruct (handle_select range_order e h0) as [flow1 h'| |] eqn:E; [|done..].
    destruct (handle_select_registry _ _ _ _ _ E) as (-> & _).
    apply IH.
Qed.

End Replies.

(** X8.  No message is dropped in silence, and nothing goes to a
    stranger: whenever handling a message returns, at least one payload
    has been sent, every payload went to the sender's queue or to the
    queue of a registered client, and a message that does not start with
    [relay] produced exactly one payload, on the sender's queue. *)
Theorem message_is_answered (range_order : gmap Z Client → list (Z * Client))
    (message : HubMessage) (flow : Flow) (h h' : Hub) :
  handle_select range_order (Message message) h = Ok flow h' →
  ∃ sends, exactly_sent h h' sends ∧ sends ≠ [] ∧
    (∀ s, s ∈ sends →
       fst s = data (client message) ∨
       ∃ k d, clients h !! k = Some d ∧ fst s = data d) ∧
    (HasPrefix (contents message) "relay" = false →
     ∃ text, sends = [(data (client message), text)]).
Proof.
  simpl. M_step.
  destruct (handleMessage range_order message h) as [[] h1| |] eqn:E; [|done..].
  intros [= <- <-]. by apply (handleMessage_replies range_order).
Qed.

(** X8, witness: [alice] sends an unknown command. *)
Lemma message_is_answered_witness :
  ∃ sends, exactly_sent two_clients (enqueue (data alice) "command not recognized" two_clients)
             sends ∧ sends ≠ [] ∧
    (∀ s, s ∈ sends →
       fst s = data (client (says alice "ping")) ∨
       ∃ k d, clients two_clients !! k = Some d ∧ fst s = data d) ∧
    (HasPrefix (contents (says alice "ping")) "relay" = false →
     ∃ text, sends = [(data (client (says alice "ping")), text)]).
Proof.
  apply (message_is_answered map_to_list (says alice "ping") Continue two_clients).
  reflexivity.
Defined.

(** X9.  While the serializer runs, the registry is determined by the
    Connect events it has handled: each one stores its client under its
    port, the latest client with a given port replacing the earlier one,
    and neither a Disconnect nor a Message changes the registry. *)
Theorem registry_follows_connects (range_order : gmap Z Client → list (Z * Client))
    (events : list Event) (flow : Flow) (h0 h : Hub) :
  handle range_order events h0 = Ok flow h →
  clients h = registry_after (clients h0) events.
Proof. intros Hrun. by apply (handle_effect range_order) in Hrun as [? _]. Qed.

(** X9, witness: [alice] and [bob] connect, [alice] disconnects. *)
Lemma registry_follows_connects_witness :
  clients alice_left =
  registry_after (clients InitHub) [Connect alice; Connect bob; Disconnect alice].
Proof.
  apply (registry_follows_connects map_to_list _ Continue). reflexivity.
Defined.

(** X10.  In a run of the serializer from the initial hub, a queue is
    closed exactly when a Disconnect of a client holding it has been
    handled: no send and no Connect closes or reopens a queue. *)
Theorem queue_closed_by_disconnect (range_order : gmap Z Client → list (Z * Client))
    (events : list Event) (flow : Flow) (h : Hub) (ch : chan) :
  handle range_order events InitHub = Ok flow h →
  (closed (chan_state h ch) = true ↔
   ∃ c, In (Disconnect c) events ∧ data c = ch).
Proof.
  intros Hrun. apply (handle_effect range_order) in Hrun as [_ Hcl].
  rewrite Hcl. change (closed (chan_state InitHub ch)) with false. simpl orb.
  rewrite existsb_exists. split.
  - intros ([c|c|m] & Hin & Hd); simpl in Hd; try done.
    exists c. split; [done|]. by apply Nat.eqb_eq.
  - intros (c & Hin & <-). exists (Disconnect c). split; [done|].
    simpl. apply Nat.eqb_refl.
Qed.

(** X10, witness: the queue of [alice] after the same run. *)
Lemma queue_closed_by_disconnect_witness :
  closed (chan_state alice_left (data alice)) = true ↔
  ∃ c, In (Disconnect c) [Connect alice; Connect bob; Disconnect alice] ∧
       data c = data alice.
Proof.
  apply (queue_closed_by_disconnect map_to_list _ Continue). reflexivity.
Defined.

(** ** Runs without a Disconnect *)

Section SafeRuns.

Variable range_order : gmap Z Client → list (Z * Client).
Hypothesis range_order_perm : ∀ m, range_order m ≡ₚ map_to_list m.

(** With the registry keyed by identity and no queue closed, a message
    from a client whose address resolves is handled to its end. *)
Lemma handleMessage_all_open (hubM : HubMessage) (port : Z) (h : Hub) :
  keyed_by_identity h → (∀ ch, closed (chan_state h ch) = false) →
  getPortFromAddress (RemoteAddr (ws (client hubM))) = inl port →
  ∃ h', handleMessage range_order hubM h = Ok tt h'.
Proof.
  intros Hkeyed Hopen Hid.
  destruct hubM as [text sender]. simpl in Hid.
  destruct (String.eqb_spec text "list") as [->|Hnlist].
  { destruct (handleMessage_list range_order range_order_perm sender port h
                Hkeyed Hid (Hopen _)) as (ids & Hrun & _).
    eauto. }
  unfold handleMessage. cbn [contents client]. rewrite Hid.
  apply String.eqb_neq in Hnlist. rewrite Hnlist.
  destruct (String.eqb text "id"); [eexists; by apply send_open|].
  destruct (HasPrefix text "relay"); [|eexists; by apply send_open].
  destruct (parseRelayString_all_open {| contents := text; client := sender |} port h)
    as (h' & sends & Hrun & _); [by intros|done|done|].
  eauto.
Qed.

Lemma handle_select_live (e : Event) (h : Hub) :
  keyed_by_identity h → (∀ ch, closed (chan_state h ch) = false) → live e →
  ∃ h', handle_select range_order e h = Ok Continue h' ∧
        keyed_by_identity h' ∧ (∀ ch, closed (chan_state h' ch) = false).
Proof.
  intros Hkeyed Hopen [Hnd [port Hid]].
  assert (∃ h', handle_select range_order e h = Ok Continue h') as [h' Hrun].
  { destruct e as [c|c|m]; simpl in *.
    - rewrite Hid. eauto.
    - by destruct (Hnd c).
    - M_step. destruct (handleMessage_all_open m port h) as [h' ->]; eauto. }
  exists h'. split; [done|].
  destruct (handle_select_registry _ _ _ _ _ Hrun) as (_ & Hk & _).
  destruct (handle_select_effect _ _ _ _ _ Hrun) as [_ Hcl].
  split; [by apply Hk|]. intros ch. rewrite Hcl, Hopen.
  destruct e as [c|c|m]; simpl; [done| |done]. by destruct (Hnd c).
Qed.

Lemma handle_live (events : list Event) (h : Hub) :
  keyed_by_identity h → (∀ ch, closed (chan_state h ch) = false) →
  (∀ e, In e events → live e) →
  ∃ h', handle range_order events h = Ok Continue h' ∧
        keyed_by_identity h' ∧ (∀ ch, closed (chan_state h' ch) = false).
Proof.
  revert h. induction events as [|e events IH]; intros h Hkeyed Hopen Hlive.
  - exists h. done.
  - destruct (handle_select_live e h Hkeyed Hopen) as (h1 & Hrun & Hk1 & Ho1).
    { apply Hlive. by left. }
    destruct (IH h1 Hk1 Ho1) as (h' & Hrun' & ?).
    { intros e' ?. apply Hlive. by right. }
    exists h'. split; [|done]. simpl. M_step. by rewrite Hrun.
Qed.

(** X11.  Only a Disconnect or an address that does not resolve can stop
    the serializer: from the initial hub it handles every sequence of
    Connects and Messages of clients whose addresses resolve without
    panicking or blocking, and leaves every queue open. *)
Theorem handle_survives_live_events (events : list Event) :
  (∀ e, In e events → live e) →
  ∃ h, handle range_order events InitHub = Ok Continue h ∧
       ∀ ch, closed (chan_state h ch) = false.
Proof.
  intros Hlive.
  destruct (handle_live events InitHub keyed_by_identity_init) as (h & Hrun & _ & Hopen);
    [done|done|]. by exists h.
Qed.

End SafeRuns.

(** X11, witness: two Connects, a list query and a relay with a missing
    destination. *)
Lemma handle_survives_live_events_witness :
  ∃ h, handle map_to_list
         [Connect alice; Message (says alice "list"); Connect bob;
          Message (says bob "relay|users=5000;77,body=hi")] InitHub = Ok Continue h ∧
       ∀ ch, closed (chan_state h ch) = false.
Proof.
  apply (handle_survives_live_events map_to_list).
  - intros m. reflexivity.
  - intros e He. simpl in He.
    repeat (destruct He as [<-|He];
            [split; [intros c0; discriminate|eexists; reflexivity]|]).
    destruct He.
Defined.

(** ** The reader *)

Section Reader.

Lemma len_positive (msg : string) : (len msg >? 0) = negb (String.eqb msg "").
Proof.
  destruct msg as [|c msg]; [done|]. unfold len. simpl String.length.
  destruct (Z.gtb_spec (Z.of_nat (S (String.length msg))) 0); [done|lia].
Qed.

End Reader.

(** X12.  The reader sends to the hub, in order, a Message for each
    non-empty frame read before the first error (empty frames are
    skipped), then, if a read failed, one Disconnect, after which it
    stops: nothing read after the first error is forwarded, and without an
    error it goes on reading. *)
Theorem reader_contract (client : Client) (results : list ReadResult) :
  read client results =
  (map (λ msg, Message {| contents := msg; client := client |}) (frames_read results) ++
   (if failed results then [Disconnect client] else []),
   if failed results then ReaderStopped else Reading).
Proof.
  induction results as [|[msg|] results IH]; simpl; [done| |done].
  rewrite IH, len_positive.
  destruct (String.eqb msg ""); simpl; done.
Qed.

(** ** One client alone *)

Lemma handle_cons (range_order : gmap Z Client → list (Z * Client))
    (e : Event) (events : list Event) (h h1 : Hub) :
  handle_select range_order e h = Ok Continue h1 →
  handle range_order (e :: events) h = handle range_order events h1.
Proof. intros Hrun. simpl. M_step. by rewrite Hrun. Qed.

Section LoneClient.

Variable range_order : gmap Z Client → list (Z * Client).
Hypothesis range_order_perm : ∀ m, range_order m ≡ₚ map_to_list m.

Variable c : Client.
Variable id : Z.
Hypothesis c_identity : getPortFromAddress (RemoteAddr (ws c)) = inl id.

Lemma sent_to_all (ch : chan) (sends : list (chan * string)) :
  (∀ s, s ∈ sends → fst s = ch) → sent_to ch sends = map snd sends.
Proof.
  intros Hall. unfold sent_to in *. induction sends as [|[ch' p] sends IH]; [done|].
  assert (ch' = ch) as -> by (apply (Hall (ch', p)); left).
  simpl. rewrite Nat.eqb_refl. simpl.
  rewrite IH; [done|]. intros s' Hs'. apply Hall. by right.
Qed.

(** Alone in the registry, the client gets at least one payload on its own
    queue for each of its messages, and the hub stays as it was
    otherwise. *)
Lemma lone_client_messages (frames : list string) (h : Hub) :
  clients h = {[id := c]} → keyed_by_identity h →
  (∀ ch, closed (chan_state h ch) = false) →
  ∃ h', handle range_order
          (map (λ msg, Message {| contents := msg; client := c |}) frames) h =
          Ok Continue h' ∧
        clients h' = {[id := c]} ∧ keyed_by_identity h' ∧
        (∀ ch, closed (chan_state h' ch) = false) ∧
        (length (queue (chan_state h (data c))) + length frames ≤
         length (queue (chan_state h' (data c))))%nat.
Proof.
  revert h. induction frames as [|msg frames IH]; intros h Hreg Hkeyed Hopen.
  - exists h. simpl. repeat split; done || lia.
  - set (e := Message {| contents := msg; client := c |}).
    destruct (handle_select_live range_order range_order_perm e h Hkeyed Hopen)
      as (h1 & Hrun & Hk1 & Ho1).
    { split; [done|]. by exists id. }
    destruct (handle_select_effect _ _ _ _ _ Hrun) as [Hreg1 _]. simpl in Hreg1.
    assert (length (queue (chan_state h (data c))) + 1 ≤
            length (queue (chan_state h1 (data c))))%nat as Hgrow.
    { revert Hrun. simpl. M_step.
      destruct (handleMessage range_order _ h) as [[] h1'| |] eqn:E; [|done..].
      intros [= <-].
      destruct (handleMessage_replies _ _ _ _ E) as (sends & [_ Hq] & Hne & Haddr & _).
      destruct (Hq (data c)) as [-> _]. rewrite sent_to_all.
      - rewrite length_app, length_map. destruct sends; [done|]. simpl. lia.
      - intros s Hs. destruct (Haddr s Hs) as [?|(k & d & Hd & ->)]; [done|].
        rewrite Hreg in Hd. apply lookup_singleton_Some in Hd as [_ <-]. done. }
    destruct (IH h1) as (h' & Hrun' & ? & ? & ? & Hlen); [congruence|done|done|].
    exists h'. split; [|repeat split; done || (simpl; lia)].
    change (map _ (msg :: frames)) with (e :: map (λ msg, Message {| contents := msg; client := c |}) frames).
    by rewrite (handle_cons range_order e _ h h1).
Qed.

Lemma write_receives (q : Chan) :
  write (receives q) = (framed (queue q), if closed q then Returned else Receiving).
Proof.
  destruct q as [q b]. unfold receives, framed. simpl.
  induction q as [|p q IH]; simpl; [by destruct b|by rewrite IH].
Qed.

Lemma read_events (results : list ReadResult) :
  fst (read c results) =
  map (λ msg, Message {| contents := msg; client := c |}) (frames_read results) ++
  (if failed results then [Disconnect c] else []).
Proof.
  induction results as [|[msg|] results IH]; simpl; [done| |done].
  destruct (read c results) as [events st]. simpl in IH. rewrite len_positive.
  destruct (String.eqb msg ""); simpl; by rewrite IH.
Qed.

Lemma lone_client_run (results : list ReadResult) :
  ∃ h, handle range_order (Connect c :: fst (read c results)) InitHub = Ok Continue h ∧
       clients h = {[id := c]} ∧
       closed (chan_state h (data c)) = failed results ∧
       (length (frames_read results) ≤ length (queue (chan_state h (data c))))%nat.
Proof.
  set (h0 := {| clients := <[id := c]> ∅; channels := ∅ |}).
  assert (handle_select range_order (Connect c) InitHub = Ok Continue h0) as Hconn
    by (simpl; by rewrite c_identity).
  destruct (lone_client_messages (frames_read results) h0)
    as (h1 & Hrun & Hreg & _ & Hopen & Hlen).
  { unfold h0. simpl. apply insert_empty. }
  { intros k d. unfold h0. simpl. rewrite insert_empty.
    intros Hd. apply lookup_singleton_Some in Hd as [<- <-]. done. }
  { done. }
  rewrite read_events.
  destruct (failed results).
  - pose (h2 := {| clients := clients h1;
                   channels := <[data c := {| queue := queue (chan_state h1 (data c));
                                              closed := true |}]> (channels h1) |}).
    exists h2. split; [|repeat split].
    + rewrite (handle_cons range_order (Connect c) _ InitHub h0) by done.
      rewrite (handle_app range_order _ _ h0 h1) by done.
      simpl. M_step. unfold close. by rewrite Hopen.
    + done.
    + unfold chan_state, h2. simpl. by rewrite lookup_insert_eq.
    + unfold chan_state at 1, h2. simpl. rewrite lookup_insert_eq. simpl.
      unfold h0, chan_state in Hlen. simpl in Hlen. done.
  - exists h1. rewrite app_nil_r. split; [|repeat split].
    + by rewrite (handle_cons range_order (Connect c) _ InitHub h0).
    + done.
    + apply Hopen.
    + unfold h0, chan_state in Hlen. simpl in Hlen. done.
Qed.

End LoneClient.

Section LoneSession.

Variable range_order : gmap Z Client → list (Z * Client).
Hypothesis range_order_perm : ∀ m, range_order m ≡ₚ map_to_list m.

(** X13.  One client alone, from accept to close.  For a connection whose
    address resolves to [id], the events that [serveWS] and [read] send
    are all handled by the serializer, whatever the frames are: the client
    ends registered under [id], alone; its queue holds at least one
    payload per non-empty frame read before the first error; the queue is
    closed exactly when a read failed; and the writer writes a frame for
    every payload queued and returns exactly in that case. *)
Theorem lone_client_session (conn : Conn) (fresh : chan) (id : Z)
    (results : list ReadResult) :
  getPortFromAddress (RemoteAddr conn) = inl id →
  ∃ h, handle range_order (connection (inl conn) fresh results) InitHub = Ok Continue h ∧
       clients h = {[id := {| ws := conn; data := fresh |}]} ∧
       closed (chan_state h fresh) = failed results ∧
       (length (frames_read results) ≤ length (queue (chan_state h fresh)))%nat ∧
       write (receives (chan_state h fresh)) =
         (framed (queue (chan_state h fresh)),
          if failed results then Returned else Receiving).
Proof.
  intros Hid.
  destruct (lone_client_run range_order range_order_perm
              {| ws := conn; data := fresh |} id Hid results)
    as (h & Hrun & Hreg & Hclosed & Hlen).
  exists h. simpl in *. repeat split; try done.
  rewrite write_receives. by rewrite Hclosed.
Qed.

End LoneSession.

(** X13, witness: the connection of [alice] reads a query, an empty frame
    and a relay, then fails. *)
Lemma lone_client_session_witness :
  ∃ h, handle map_to_list
         (connection (inl (ws alice)) 1%nat
            [ReadFrame "id"; ReadFrame ""; ReadFrame "relay|users=5000;6000,body=hi";
             ReadError; ReadFrame "list"]) InitHub = Ok Continue h ∧
       clients h = {[5000 := {| ws := ws alice; data := 1%nat |}]} ∧
       closed (chan_state h 1%nat) =
         failed [ReadFrame "id"; ReadFrame ""; ReadFrame "relay|users=5000;6000,body=hi";
                 ReadError; ReadFrame "list"] ∧
       (length (frames_read
                  [ReadFrame "id"; ReadFrame ""; ReadFrame "relay|users=5000;6000,body=hi";
                   ReadError; ReadFrame "list"]) ≤ length (queue (chan_state h 1%nat)))%nat ∧
       write (receives (chan_state h 1%nat)) =
         (framed (queue (chan_state h 1%nat)),
          if failed [ReadFrame "id"; ReadFrame ""; ReadFrame "relay|users=5000;6000,body=hi";
                     ReadError; ReadFrame "list"]
          then Returned else Receiving).
Proof.
  apply (lone_client_session map_to_list).
  - intros m. reflexivity.
  - reflexivity.
Defined.

(** ** The list query *)

Section Others.

Variable range_order : gmap Z Client → list (Z * Client).
Hypothesis range_order_perm : ∀ m, range_order m ≡ₚ map_to_list m.

Lemma others_entries (m : gmap Z Client) (user : Z) :
  filter (λ kv : Z * Client, kv.1 ≠ user) (range_order m) ≡ₚ
  map_to_list (delete user m).
Proof.
  rewrite range_order_perm. apply NoDup_Permutation.
  - apply NoDup_filter, NoDup_map_to_list.
  - apply NoDup_map_to_list.
  - intros [k v]. rewrite list_elem_of_filter, !elem_of_map_to_list, lookup_delete_Some.
    simpl. split; intros [? ?]; split; done || congruence.
Qed.

(** X14.  [getAllUsersExcept] leaves the hub as it is and returns, in the
    order of the map's enumeration, exactly the clients registered under
    the keys other than [user]: all of them when [user] is not a key, all
    but one when it is. *)
Theorem getAllUsersExcept_others (user : Z) (h : Hub) :
  ∃ cs, getAllUsersExcept range_order user h = Ok cs h ∧
        cs ≡ₚ (map_to_list (delete user (clients h))).*2 ∧
        (clients h !! user = None → length cs = size (clients h)) ∧
        (is_Some (clients h !! user) → S (length cs) = size (clients h)).
Proof.
  exists ((filter (λ kv : Z * Client, kv.1 ≠ user) (range_order (clients h))).*2).
  assert ((filter (λ kv : Z * Client, kv.1 ≠ user) (range_order (clients h))).*2 ≡ₚ
          (map_to_list (delete user (clients h))).*2) as Hperm
    by (by rewrite others_entries).
  split; [|split; [done|split]].
  - unfold getAllUsersExcept. by rewrite getAllUsersExcept_loop_filter.
  - intros Hnone. rewrite Hperm, length_fmap, delete_id by done.
    apply length_map_to_list.
  - intros [c Hc]. rewrite Hperm, length_fmap, length_map_to_list.
    rewrite <- (insert_delete_id (clients h) user c) at 2 by done.
    rewrite map_size_insert_None by apply lookup_delete_eq. done.
Qed.

End Others.

(** X14, witness: the others for 5000 among [alice] and [bob]. *)
Lemma getAllUsersExcept_others_witness :
  ∃ cs, getAllUsersExcept map_to_list 5000 two_clients = Ok cs two_clients ∧
        cs ≡ₚ (map_to_list (delete 5000 (clients two_clients))).*2 ∧
        (clients two_clients !! 5000 = None → length cs = size (clients two_clients)) ∧
        (is_Some (clients two_clients !! 5000) → S (length cs) = size (clients two_clients)).
Proof.
  apply (getAllUsersExcept_others map_to_list). intros m. reflexivity.
Defined.

(** ** The listing *)

Section Listing.

Lemma clientsToBytes_loop_panics (cs : list Client) (i : Z) (value : string) (h : Hub) :
  (∃ c err, c ∈ cs ∧ getPortFromAddress (RemoteAddr (ws c)) = inr err) →
  clientsToBytes_loop i cs value h =
  Panic "invalid memory address or nil pointer dereference".
Proof.
  revert i value. induction cs as [|c cs IH]; intros i value (c' & err & Hin & Herr).
  - by apply elem_of_nil in Hin.
  - simpl. destruct (getPortFromAddress (RemoteAddr (ws c))) as [port|err'] eqn:E; simpl.
    + M_step. simpl. apply IH. exists c', err. split; [|done].
      apply elem_of_cons in Hin as [->|Hin]; [congruence|done].
    + done.
Qed.

End Listing.

(** X15.  [clientsToBytes] changes nothing.  On clients whose addresses
    all resolve it returns the listing of their identities, in order; when
    the address of one of them does not resolve it panics on the nil
    pointer that [getPortFromAddress] returned. *)
Theorem clientsToBytes_outcome (cs : list Client) (h : Hub) :
  (∀ ids, Forall2 (λ c id, getPortFromAddress (RemoteAddr (ws c)) = inl id) cs ids →
          clientsToBytes cs h = Ok (listing ids) h) ∧
  ((∃ c err, c ∈ cs ∧ getPortFromAddress (RemoteAddr (ws c)) = inr err) →
   clientsToBytes cs h = Panic "invalid memory address or nil pointer dereference").
Proof.
  split.
  - intros ids Hids. by apply clientsToBytes_listing.
  - apply clientsToBytes_loop_panics.
Qed.

(** X15, witness: a listing of two clients, and one with [carol], whose
    address does not resolve. *)
Lemma clientsToBytes_outcome_witness :
  clientsToBytes [bob; alice] InitHub = Ok (listing [6000; 5000]) InitHub ∧
  clientsToBytes [bob; carol] InitHub =
    Panic "invalid memory address or nil pointer dereference".
Proof.
  split.
  - apply (clientsToBytes_outcome [bob; alice] InitHub).
    repeat constructor.
  - apply (clientsToBytes_outcome [bob; carol] InitHub).
    exists carol, (Errorf "error reading the address: [::1]:7000").
    split; [|reflexivity]. right. left.
Defined.

(** ** Relaying to a client that has disconnected *)

Section AfterDisconnect.

Variable range_order : gmap Z Client → list (Z * Client).

(** X16.  Relaying to a client that has disconnected stops the hub: after
    a run in which the Disconnect of a client was handled, while that
    client is still the one registered under [id], handling a relay
    addressed to [Sprint id] panics with [send on closed channel]. *)
Theorem relay_after_disconnect_panics (events : list Event) (flow : Flow) (h : Hub)
    (gone sender : Client) (id senderID : Z) (body : string) :
  handle range_order events InitHub = Ok flow h →
  In (Disconnect gone) events →
  clients h !! id = Some gone →
  getPortFromAddress (RemoteAddr (ws sender)) = inl senderID →
  count "," body = O → len body <= maxBodySize →
  handle_select range_order
    (Message (says sender ("relay|users=" +:+ Sprint id +:+ ",body=" +:+ body))) h =
  Panic "send on closed channel".
Proof.
  intros Hrun Hgone Hreg Hsid Hbody Hsize.
  destruct (handle_registry range_order _ _ _ _ Hrun keyed_by_identity_init)
    as (_ & Hkeyed & _).
  pose proof (getPortFromAddress_int _ _ (Hkeyed _ _ Hreg)) as Hint.
  destruct (handle_effect range_order _ _ _ _ Hrun) as [_ Hcl].
  assert (closed (chan_state h (data gone)) = true) as Hclosed.
  { rewrite Hcl. apply orb_true_iff. right. apply existsb_exists.
    exists (Disconnect gone). split; [done|]. simpl. apply Nat.eqb_refl. }
  destruct (Sprint_base10 id) as [Hb _].
  assert (count "," (Sprint id) = O) as Hcomma by (by apply base10_count).
  assert (count ";" (Sprint id) = O) as Hsemi by (by apply base10_count).
  destruct (relay_parts sender (Sprint id) body Hcomma Hbody) as (Hok & Husers & Hbod).
  set (message := says sender ("relay|users=" +:+ Sprint id +:+ ",body=" +:+ body)) in *.
  assert (relay_dests message = [Sprint id]) as Hdests
    by (unfold relay_dests; rewrite Husers; by apply Split_no_sep).
  assert (parseRelayString message h = Panic "send on closed channel") as Hpanic.
  { rewrite parseRelayString_accepted; [|done|].
    - rewrite Hdests, Hbod. simpl client. rewrite Hsid. simpl.
      M_step. unfold get_client. rewrite (Atoi_Sprint id) by done.
      simpl. rewrite Hreg. simpl. by rewrite send_closed.
    - split; [|by rewrite Hbod]. rewrite Hdests. unfold maxReceiversPerMessage, llen.
      simpl. lia. }
  unfold handle_select, handleMessage. M_step. cbn [contents client message says].
  rewrite Hsid.
  assert (∀ s, String.eqb ("relay|users=" +:+ s) "id" = false ∧
               String.eqb ("relay|users=" +:+ s) "list" = false ∧
               HasPrefix ("relay|users=" +:+ s) "relay" = true) as Hshape by done.
  destruct (Hshape (Sprint id +:+ ",body=" +:+ body)) as (-> & -> & ->).
  fold (says sender ("relay|users=" +:+ Sprint id +:+ ",body=" +:+ body)).
  fold message. by rewrite Hpanic.
Qed.

End AfterDisconnect.

(** X16, witness: [bob] relays to the printed identity of [alice] after
    the Disconnect of [alice]. *)
Lemma relay_after_disconnect_panics_witness :
  handle_select map_to_list
    (Message (says bob ("relay|users=" +:+ Sprint 5000 +:+ ",body=" +:+ "hi"))) alice_left =
  Panic "send on closed channel".
Proof.
  apply (relay_after_disconnect_panics map_to_list
           [Connect alice; Connect bob; Disconnect alice] Continue alice_left alice bob 5000 6000).
  - reflexivity.
  - right. right. left. reflexivity.
  - reflexivity.
  - reflexivity.
  - reflexivity.
  - vm_compute. discriminate.
Defined.
